(** * OrderedQMap / OrderedQMultiMap (src/OrderedQMap.h)

    A shallow embedding of the two order-preserving containers of
    [namespace ActionNet].  Each class derives from a Qt associative
    container (the store) and, privately, from [QList<Key>] (the order
    sequence).  The embedding keeps that shape: a record with a [store] and
    an [order] field, and every member function written as a function on
    that record, calling the same base-class members the C++ calls.

    The Qt 5 containers themselves are library code.  They are modelled by
    the modules [QList], [QMap], [QMultiMap] and [QDataStream] below, after
    the documented behaviour of Qt 5 (the header only builds against Qt 5:
    it relies on [QMultiMap] deriving from [QMap]). *)

From stdpp Require Import gmap strings list fin_maps.
From Stdlib Require Import ZArith.

Local Open Scope Z_scope.

Set Warnings "-clear-no-such-hyp".

(** [Key()] and [T()]: the value-initialised object of a type. *)
Class DefaultCtor (A : Type) : Type := default_ctor : A.

#[global] Instance string_default_ctor : DefaultCtor string := EmptyString.
#[global] Instance Z_default_ctor : DefaultCtor Z := 0.

(** ** QList<A> *)
Module QList.
Section qlist.
Context {A : Type} `{EqDecision A}.

(** [QList::contains]: linear scan with [operator==]. *)
Fixpoint contains (x : A) (l : list A) : bool :=
  match l with
  | [] => false
  | y :: l' => if decide (y = x) then true else contains x l'
  end.

(** The scan of [QList::indexOf], started at position [i]. *)
Fixpoint indexOf_from (x : A) (l : list A) (i : Z) : Z :=
  match l with
  | [] => -1
  | y :: l' => if decide (y = x) then i else indexOf_from x l' (i + 1)
  end.

(** [QList::indexOf(value, from = 0)]: first position, or -1. *)
Definition indexOf (x : A) (l : list A) : Z := indexOf_from x l 0.

Definition in_range (i : Z) (l : list A) : Prop := 0 ≤ i < Z.of_nat (length l).

#[global] Instance in_range_dec i l : Decision (in_range i l).
Proof. unfold in_range. apply _. Defined.

(** [QList::removeAt(i)]: Qt 5 ignores an index out of range. *)
Definition removeAt (i : Z) (l : list A) : list A :=
  if decide (in_range i l) then delete (Z.to_nat i) l else l.

(** [QList::value(i)]: the item, or a default-constructed one when [i] is
    out of bounds. *)
Definition value `{DefaultCtor A} (i : Z) (l : list A) : A :=
  if decide (in_range i l) then default default_ctor (l !! Z.to_nat i)
  else default_ctor.

(** [QList::at(i)]: [i] must be a valid position (asserted by Qt);
    [None] stands for the violated precondition. *)
Definition at_ (i : Z) (l : list A) : option A :=
  if decide (in_range i l) then l !! Z.to_nat i else None.

(** [QList::last()]: the list must not be empty (asserted by Qt). *)
Definition last (l : list A) : option A := list.last l.

Definition isEmpty (l : list A) : bool :=
  match l with [] => true | _ => false end.

Definition append (x : A) (l : list A) : list A := l ++ [x].

Definition prepend (x : A) (l : list A) : list A := x :: l.

(** [QList::removeAll(x)]: drops every occurrence of [x]. *)
Fixpoint removeAll (x : A) (l : list A) : list A :=
  match l with
  | [] => []
  | y :: l' => if decide (y = x) then removeAll x l' else y :: removeAll x l'
  end.
End qlist.
End QList.

(** ** QMap<K,T>: one value per key *)
Module QMap.
Section qmap.
Context {K T : Type} `{Countable K}.

(** [QMap::insert]: binds [k] to [v], replacing an earlier binding. *)
Definition insert (k : K) (v : T) (m : gmap K T) : gmap K T := <[k := v]> m.

(** [QMap::value(key, defaultValue)]. *)
Definition value (k : K) (d : T) (m : gmap K T) : T := default d (m !! k).

(** [QMap::remove]: the number of items removed (0 or 1) and the map. *)
Definition remove (k : K) (m : gmap K T) : Z * gmap K T :=
  (match m !! k with Some _ => 1 | None => 0 end, delete k m).

(** [QMap::operator[]] (non-const): a missing key is bound to [T()]. *)
Definition subscript `{DefaultCtor T} (k : K) (m : gmap K T) : gmap K T :=
  match m !! k with
  | Some _ => m
  | None => <[k := default_ctor]> m
  end.

Definition size (m : gmap K T) : Z := Z.of_nat (base.size m).

(** [QMap::count(key)]: the number of items with that key, 0 or 1. *)
Definition count (k : K) (m : gmap K T) : Z :=
  match m !! k with Some _ => 1 | None => 0 end.

Definition isEmpty (m : gmap K T) : bool := bool_decide (m = ∅).
End qmap.
End QMap.

(** ** QMultiMap<K,T>: the values of a key, most recently inserted first *)
Module QMultiMap.
Section qmultimap.
Context {K T : Type} `{Countable K}.

(** [QMultiMap::values(key)]: from the most recently inserted to the
    least recently inserted one. *)
Definition values (k : K) (m : gmap K (list T)) : list T := default [] (m !! k).

(** [QMultiMap::insert]: always adds a new item for [k]. *)
Definition insert (k : K) (v : T) (m : gmap K (list T)) : gmap K (list T) :=
  <[k := v :: values k m]> m.

(** [QMultiMap::replace]: with several items for [k], the most recently
    inserted one gets the new value; without any, [v] is inserted. *)
Definition replace (k : K) (v : T) (m : gmap K (list T)) : gmap K (list T) :=
  <[k := v :: tail (values k m)]> m.

(** [QMultiMap::value(key, defaultValue)]: the most recently inserted
    value of [k]. *)
Definition value (k : K) (d : T) (m : gmap K (list T)) : T :=
  match values k m with
  | v :: _ => v
  | [] => d
  end.

(** [QMultiMap::remove(key)]: removes all items of [k], returns how many. *)
Definition remove (k : K) (m : gmap K (list T)) : Z * gmap K (list T) :=
  (Z.of_nat (length (values k m)), delete k m).

(** [QMultiMap::contains(key, value)]. *)
Definition contains_pair `{EqDecision T} (k : K) (v : T)
    (m : gmap K (list T)) : bool :=
  bool_decide (v ∈ values k m).

(** [QMultiMap::count(key)]. *)
Definition count (k : K) (m : gmap K (list T)) : Z :=
  Z.of_nat (length (values k m)).

(** [QMap::operator[]] on the multi-map: a key without items gets [T()]. *)
Definition subscript `{DefaultCtor T} (k : K) (m : gmap K (list T))
    : gmap K (list T) :=
  match values k m with
  | [] => <[k := [default_ctor]]> m
  | _ => m
  end.

(** [QMultiMap::size()]: the number of items, over all keys. *)
Definition size (m : gmap K (list T)) : Z :=
  map_fold (λ _ vs n, Z.of_nat (length vs) + n) 0 m.

Definition isEmpty (m : gmap K (list T)) : bool := bool_decide (size m = 0).
End qmultimap.
End QMultiMap.

(** ** QDataStream

    The stream is a queue of the containers written to it; how Qt frames a
    [QList] or a [QMap] in bytes is not modelled.  Reading a container that
    is not at the head of the queue fails as in Qt: the target is left
    empty and the rest of the stream is unusable. *)
Module QDataStream.
Section qdatastream.
Context {K T : Type} `{Countable K}.

Inductive chunk : Type :=
| KeyList (l : list K)
| MapPayload (m : gmap K T)
| MultiMapPayload (m : gmap K (list T)).

Definition write_QList (l : list K) (s : list chunk) : list chunk :=
  s ++ [KeyList l].

Definition write_QMap (m : gmap K T) (s : list chunk) : list chunk :=
  s ++ [MapPayload m].

Definition write_QMultiMap (m : gmap K (list T)) (s : list chunk) : list chunk :=
  s ++ [MultiMapPayload m].

Definition read_QList (s : list chunk) : list K * list chunk :=
  match s with
  | KeyList l :: s' => (l, s')
  | _ => ([], [])
  end.

Definition read_QMap (s : list chunk) : gmap K T * list chunk :=
  match s with
  | MapPayload m :: s' => (m, s')
  | _ => (∅, [])
  end.

Definition read_QMultiMap (s : list chunk) : gmap K (list T) * list chunk :=
  match s with
  | MultiMapPayload m :: s' => (m, s')
  | _ => (∅, [])
  end.
End qdatastream.
Arguments chunk : clear implicits.
Arguments chunk _ _ {_ _}.
End QDataStream.

(** ** OrderedQMap<Key,T> : public QMap<Key,T>, private QList<Key> *)
Module OrderedQMap.
Section ordered_qmap.
Context {K T : Type} `{Countable K} `{DefaultCtor K} `{DefaultCtor T}.

(** The two base-class sub-objects. *)
Record t : Type := mk { store : gmap K T; order : list K }.

(** A default-constructed container. *)
Definition empty : t := mk ∅ [].

Definition contains (key : K) (m : t) : bool := QList.contains key (order m).

(** [keys()] returns the [QList] base. *)
Definition keys (m : t) : list K := order m.

(** [value(const Key&)] and [value(const Key&, const T&)]. *)
Definition value_or (key : K) (defaultValue : T) (m : t) : T :=
  QMap.value key defaultValue (store m).

Definition value (key : K) (m : t) : T := value_or key default_ctor m.

(** Non-const [operator[]]: the state after the call; the reference it
    returns designates the value of [key] in the store. *)
Definition subscript (key : K) (m : t) : t :=
  let order' :=
    if negb (QList.contains key (order m)) then QList.append key (order m)
    else order m in
  mk (QMap.subscript key (store m)) order'.

(** [map[key] = v]: [operator[]] followed by a write through the
    reference. *)
Definition subscript_assign (key : K) (v : T) (m : t) : t :=
  let m' := subscript key m in
  mk (<[key := v]> (store m')) (order m').

Definition insert (key : K) (v : T) (m : t) : t :=
  let store' := QMap.insert key v (store m) in
  let order' :=
    if negb (QList.contains key (order m)) then QList.append key (order m)
    else order m in
  mk store' order'.

Definition append (key : K) (v : T) (m : t) : t := insert key v m.

Definition prepend (key : K) (v : T) (m : t) : t :=
  let store' := QMap.insert key v (store m) in
  let order' :=
    if negb (QList.contains key (order m)) then QList.prepend key (order m)
    else order m in
  mk store' order'.

(** [replaceAt]: [QList::at] requires a valid index. *)
Definition replaceAt (index : Z) (v : T) (m : t) : option (K * t) :=
  key ← QList.at_ index (order m);
  Some (key, mk (QMap.insert key v (store m)) (order m)).

Definition at_ (index : Z) (m : t) : option T :=
  key ← QList.at_ index (order m);
  Some (QMap.value key default_ctor (store m)).

(** [value(int index)]. *)
Definition value_at (index : Z) (m : t) : T :=
  let key := QList.value index (order m) in
  QMap.value key default_ctor (store m).

Definition key (index : Z) (m : t) : K := QList.value index (order m).

Definition remove (key : K) (m : t) : Z * t :=
  let i := QList.indexOf key (order m) in
  let order' := QList.removeAt i (order m) in
  let store' := snd (QMap.remove key (store m)) in
  (i, mk store' order').

Definition removeAt (i : Z) (m : t) : K * t :=
  let k := key i m in
  let order' := QList.removeAt i (order m) in
  let store' := snd (QMap.remove k (store m)) in
  (k, mk store' order').

(** [removeLast]: [QList::last] requires a non-empty list. *)
Definition removeLast (m : t) : option (K * t) :=
  key ← QList.last (order m);
  Some (key, snd (remove key m)).

Definition last (m : t) : K * T :=
  if QList.isEmpty (order m) then (default_ctor, default_ctor)
  else
    let key := default default_ctor (QList.last (order m)) in
    (key, value key m).

Definition isEmpty (m : t) : bool := QMap.isEmpty (store m).

Definition size (m : t) : Z := QMap.size (store m).

Definition length (m : t) : Z := QMap.size (store m).

Definition count (key : K) (m : t) : Z := QMap.count key (store m).

Definition values (m : t) : list T := (λ key, value key m) <$> keys m.

Definition valueKeyList (addEmptyPair putEmptyPairAsFirst : bool) (m : t)
    : list (T * K) :=
  let res := (λ key, (value key m, key)) <$> keys m in
  if addEmptyPair then
    if putEmptyPairAsFirst then (default_ctor, default_ctor) :: res
    else res ++ [(default_ctor, default_ctor)]
  else res.

Definition keyOrder (key : K) (m : t) : Z := QList.indexOf key (keys m).

Definition clear (m : t) : t := mk ∅ [].

(** The fluent [operator()(key, value)]. *)
Definition call (key : K) (v : T) (m : t) : t :=
  let store' := QMap.insert key v (store m) in
  let order' :=
    if negb (QList.contains key (order m)) then QList.append key (order m)
    else order m in
  mk store' order'.

(** [operator<<(QPair)] and [operator>>(QPair)]. *)
Definition shl_pair (p : K * T) (m : t) : t := insert p.1 p.2 m.

Definition shr_pair (p : K * T) (m : t) : t := prepend p.1 p.2 m.

(** [toQMap()]: a copy of the [QMap] base. *)
Definition toQMap (m : t) : gmap K T := store m.

(** [operator<<(QDataStream&, const OrderedQMap&)]. *)
Definition stream_out (out : list (QDataStream.chunk K T)) (obj : t)
    : list (QDataStream.chunk K T) :=
  let ks := keys obj in
  let tmpMap := foldl (λ tmp k, QMap.insert k (value k obj) tmp) ∅ ks in
  QDataStream.write_QMap tmpMap (QDataStream.write_QList (keys obj) out).

(** [operator>>(QDataStream&, OrderedQMap&)]. *)
Definition stream_in (inp : list (QDataStream.chunk K T)) (obj : t)
    : list (QDataStream.chunk K T) * t :=
  let '(ks, inp1) := QDataStream.read_QList inp in
  let '(tmpMap, inp2) := QDataStream.read_QMap inp1 in
  (inp2, foldl (λ o k, insert k (QMap.value k default_ctor tmpMap) o) obj ks).

(** *** Public mutating calls, as data *)
Inductive call_t : Type :=
| Insert (key : K) (v : T)
| Prepend (key : K) (v : T)
| ReplaceAt (index : Z) (v : T)
| Remove (key : K)
| RemoveAt (index : Z)
| RemoveLast
| Clear
| Call (key : K) (v : T)
| Subscript (key : K)
| SubscriptAssign (key : K) (v : T).

(** The state after one call; [None] when Qt's precondition on
    [QList::at] or [QList::last] is violated. *)
Definition exec (c : call_t) (m : t) : option t :=
  match c with
  | Insert k v => Some (insert k v m)
  | Prepend k v => Some (prepend k v m)
  | ReplaceAt i v => snd <$> replaceAt i v m
  | Remove k => Some (snd (remove k m))
  | RemoveAt i => Some (snd (removeAt i m))
  | RemoveLast => snd <$> removeLast m
  | Clear => Some (clear m)
  | Call k v => Some (call k v m)
  | Subscript k => Some (subscript k m)
  | SubscriptAssign k v => Some (subscript_assign k v m)
  end.

Fixpoint run (cs : list call_t) (m : t) : option t :=
  match cs with
  | [] => Some m
  | c :: cs' => m' ← exec c m; run cs' m'
  end.

(** The calls whose arguments the container accepts in state [m]: a
    valid index, a present key, a non-empty map. *)
Definition admissible (c : call_t) (m : t) : bool :=
  match c with
  | ReplaceAt i _ | RemoveAt i => bool_decide (0 ≤ i < size m)
  | Remove k => contains k m
  | RemoveLast => negb (isEmpty m)
  | _ => true
  end.

(** Every call of the sequence is admissible in the state it is made in.
    Nothing is asked of the calls after one without a defined result: that
    an admissible call always has one is part of what is proved below. *)
Fixpoint admissible_seq (cs : list call_t) (m : t) : bool :=
  match cs with
  | [] => true
  | c :: cs' =>
      admissible c m &&
      match exec c m with
      | Some m' => admissible_seq cs' m'
      | None => false
      end
  end.

(** *** The data-model invariants *)
Definition I1 (m : t) : Prop := list_to_set (order m) = dom (store m).

Definition I2 (m : t) : Prop := NoDup (order m).

Definition I3 (m : t) : Prop := Z.of_nat (base.length (order m)) = size m.

Definition Inv (m : t) : Prop := I1 m ∧ I2 m.
End ordered_qmap.
Arguments t : clear implicits.
Arguments t _ _ {_ _}.
Arguments call_t : clear implicits.
End OrderedQMap.

(** ** OrderedQMultiMap<Key,T> : public QMultiMap<Key,T>, private QList<Key> *)
Module OrderedQMultiMap.
Section ordered_qmultimap.
Context {K T : Type} `{Countable K} `{DefaultCtor K} `{DefaultCtor T}.

Record t : Type := mk { store : gmap K (list T); order : list K }.

Definition empty : t := mk ∅ [].

Definition contains (key : K) (m : t) : bool := QList.contains key (order m).

Definition keys (m : t) : list K := order m.

Definition value_or (key : K) (defaultValue : T) (m : t) : T :=
  QMultiMap.value key defaultValue (store m).

Definition value (key : K) (m : t) : T := value_or key default_ctor m.

(** [values(key)], inherited from [QMultiMap]. *)
Definition values (key : K) (m : t) : list T := QMultiMap.values key (store m).

Definition subscript (key : K) (m : t) : t :=
  let order' :=
    if negb (QList.contains key (order m)) then QList.append key (order m)
    else order m in
  mk (QMultiMap.subscript key (store m)) order'.

Definition insert (key : K) (v : T) (m : t) : t :=
  let store' := QMultiMap.insert key v (store m) in
  mk store' (QList.append key (order m)).

Definition append (key : K) (v : T) (m : t) : t := insert key v m.

Definition prepend (key : K) (v : T) (m : t) : t :=
  let store' := QMultiMap.insert key v (store m) in
  let order' :=
    if negb (QList.contains key (order m)) then QList.prepend key (order m)
    else order m in
  mk store' order'.

Definition replace (key : K) (v : T) (m : t) : t :=
  let order' :=
    if negb (QList.contains key (order m)) then QList.append key (order m)
    else order m in
  mk (QMultiMap.replace key v (store m)) order'.

Definition remove (key : K) (m : t) : Z * t :=
  let order' := QList.removeAll key (order m) in
  let '(i, store') := QMultiMap.remove key (store m) in
  (i, mk store' order').

Definition last (m : t) : T :=
  if QList.isEmpty (order m) then default_ctor
  else value (default default_ctor (QList.last (order m))) m.

Definition isEmpty (m : t) : bool := QMultiMap.isEmpty (store m).

Definition key (index : Z) (m : t) : K := QList.value index (order m).

Definition size (m : t) : Z := QMultiMap.size (store m).

Definition count (key : K) (m : t) : Z := QMultiMap.count key (store m).

Definition clear (m : t) : t := mk ∅ [].

Definition call (key : K) (v : T) (m : t) : t :=
  mk (QMultiMap.insert key v (store m)) (QList.append key (order m)).

Definition shl_pair (p : K * T) (m : t) : t := insert p.1 p.2 m.

(** [operator<<(QDataStream&, const OrderedQMultiMap&)]. *)
Definition stream_out (out : list (QDataStream.chunk K T)) (obj : t)
    : list (QDataStream.chunk K T) :=
  let ks := keys obj in
  let tmpMap := foldl (λ tmp k, QMultiMap.insert k (value k obj) tmp) ∅ ks in
  QDataStream.write_QMultiMap tmpMap (QDataStream.write_QList (keys obj) out).

(** [operator>>(QDataStream&, OrderedQMultiMap&)]. *)
Definition stream_in (inp : list (QDataStream.chunk K T)) (obj : t)
    : list (QDataStream.chunk K T) * t :=
  let '(ks, inp1) := QDataStream.read_QList inp in
  let '(tmpMap, inp2) := QDataStream.read_QMultiMap inp1 in
  (inp2,
   foldl (λ o k, insert k (QMultiMap.value k default_ctor tmpMap) o) obj ks).

(** [toQMap()]: a copy of the [QMultiMap] base. *)
Definition toQMap (m : t) : gmap K (list T) := store m.

(** *** Public mutating calls, as data *)
Inductive call_t : Type :=
| Insert (key : K) (v : T)
| Append (key : K) (v : T)
| Prepend (key : K) (v : T)
| Replace (key : K) (v : T)
| Remove (key : K)
| Clear
| Call (key : K) (v : T)
| ShlPair (p : K * T)
| Subscript (key : K).

(** The state after one call; no member of the multi-map has a
    precondition. *)
Definition exec (c : call_t) (m : t) : t :=
  match c with
  | Insert k v => insert k v m
  | Append k v => append k v m
  | Prepend k v => prepend k v m
  | Replace k v => replace k v m
  | Remove k => (remove k m).2
  | Clear => clear m
  | Call k v => call k v m
  | ShlPair p => shl_pair p m
  | Subscript k => subscript k m
  end.

Definition run (cs : list call_t) (m : t) : t := foldl (λ o c, exec c o) m cs.

(** How often [key] occurs in the order sequence. *)
Definition occurrences (key : K) (m : t) : nat :=
  base.length (filter (λ k, k = key) (order m)).

(** One order entry per stored value, for every key. *)
Definition balanced (m : t) : Prop :=
  ∀ key, occurrences key m = base.length (values key m).

(** Calls other than a [prepend] of a key that is already ordered. *)
Definition no_prepend_of_present (c : call_t) (m : t) : bool :=
  match c with
  | Prepend k _ => negb (contains k m)
  | _ => true
  end.

Fixpoint no_prepend_of_present_seq (cs : list call_t) (m : t) : bool :=
  match cs with
  | [] => true
  | c :: cs' => no_prepend_of_present c m && no_prepend_of_present_seq cs' (exec c m)
  end.
End ordered_qmultimap.
Arguments call_t : clear implicits.
Arguments t : clear implicits.
Arguments t _ _ {_ _}.
End OrderedQMultiMap.

(** * Concrete containers used in the examples: [QString] keys, [int] values *)
(** insert("x",1), insert("x",2) on an [OrderedQMultiMap<QString,int>]. *)
Definition demo_multi : OrderedQMultiMap.t string Z :=
  OrderedQMultiMap.insert "x"%string 2
    (OrderedQMultiMap.insert "x"%string 1 OrderedQMultiMap.empty).

(** insert("b",2), insert("a",1), insert("c",3) on an
    [OrderedQMap<QString,int>]. *)
Definition demo_map : OrderedQMap.t string Z :=
  OrderedQMap.insert "c"%string 3
    (OrderedQMap.insert "a"%string 1
       (OrderedQMap.insert "b"%string 2 OrderedQMap.empty)).

(** The map [{"" ↦ 5}], of type [OrderedQMap<QString,int>]. *)
Definition empty_key_map : OrderedQMap.t string Z :=
  OrderedQMap.insert ""%string 5 OrderedQMap.empty.

(** A call sequence that uses every mutator. *)
Definition demo_calls : list (OrderedQMap.call_t string Z) :=
  [ OrderedQMap.Insert "b"%string 2; OrderedQMap.Insert "a"%string 1;
    OrderedQMap.Call "c"%string 3; OrderedQMap.Insert "a"%string 10;
    OrderedQMap.ReplaceAt 0 20; OrderedQMap.Prepend "z"%string 26;
    OrderedQMap.Remove "a"%string; OrderedQMap.SubscriptAssign "q"%string 4;
    OrderedQMap.Subscript "r"%string; OrderedQMap.RemoveAt 1;
    OrderedQMap.RemoveLast; OrderedQMap.Clear; OrderedQMap.Insert "k"%string 7 ].

(** The pairs of a fluent construction, keys pairwise distinct. *)
Definition demo_pairs : list (string * Z) :=
  [("b", 2); ("a", 1); ("c", 3)]%string.

(** A call sequence on the multi-map that never prepends a present key. *)
Definition demo_multi_calls : list (OrderedQMultiMap.call_t string Z) :=
  [ OrderedQMultiMap.Insert "x"%string 1; OrderedQMultiMap.Insert "x"%string 2;
    OrderedQMultiMap.Prepend "p"%string 0; OrderedQMultiMap.Replace "x"%string 9;
    OrderedQMultiMap.Replace "r"%string 4; OrderedQMultiMap.Subscript "s"%string;
    OrderedQMultiMap.Call "y"%string 5; OrderedQMultiMap.ShlPair ("y"%string, 6);
    OrderedQMultiMap.Remove "p"%string; OrderedQMultiMap.Append "x"%string 3 ].

(** insert("a",1), ("x",2), ("a",3), ("b",4), ("x",5) on an
    [OrderedQMultiMap<QString,int>]. *)
Definition demo_multi_mixed : OrderedQMultiMap.t string Z :=
  OrderedQMultiMap.insert "x"%string 5
    (OrderedQMultiMap.insert "b"%string 4
       (OrderedQMultiMap.insert "a"%string 3
          (OrderedQMultiMap.insert "x"%string 2
             (OrderedQMultiMap.insert "a"%string 1 OrderedQMultiMap.empty)))).

(** A multi-map with one value per key. *)
Definition demo_multi_flat : OrderedQMultiMap.t string Z :=
  OrderedQMultiMap.insert "y"%string 2
    (OrderedQMultiMap.insert "x"%string 1 OrderedQMultiMap.empty).

(** A map with contents of its own, to read a stream into. *)
Definition busy_map : OrderedQMap.t string Z :=
  OrderedQMap.insert "a"%string 100
    (OrderedQMap.insert "q"%string 5 OrderedQMap.empty).

(** * Facts about the [QList] model *)
Section qlist_facts.
Context {A : Type} `{EqDecision A}.
Implicit Types (x : A) (l : list A).

Lemma QList_contains_true x l : QList.contains x l = true ↔ x ∈ l.
Proof.
  induction l as [|y l IH]; simpl.
  - split; [done | by intros ?%not_elem_of_nil].
  - case_decide as Hy; subst.
    + split; [left | done].
    + rewrite IH. split; [by right | by intros [?|?]%elem_of_cons].
Qed.

Lemma QList_contains_false x l : QList.contains x l = false ↔ x ∉ l.
Proof.
  rewrite <- QList_contains_true. destruct (QList.contains x l); naive_solver.
Qed.

Lemma QList_indexOf_from_notin x l i : x ∉ l → QList.indexOf_from x l i = -1.
Proof.
  revert i. induction l as [|y l IH]; intros i Hx; simpl; [done|].
  apply not_elem_of_cons in Hx as [Hne Hl].
  case_decide; [congruence | by apply IH].
Qed.

(** A found key is reported at its first position. *)
Lemma QList_indexOf_from_elem x l i :
  x ∈ l →
  ∃ n : nat, QList.indexOf_from x l i = i + Z.of_nat n ∧
             l !! n = Some x ∧ x ∉ take n l.
Proof.
  revert i. induction l as [|y l IH]; intros i Hx; simpl.
  - by apply not_elem_of_nil in Hx.
  - case_decide as Hy.
    + subst. exists 0%nat. split_and!; [lia | done | apply not_elem_of_nil].
    + apply elem_of_cons in Hx as [->|Hx]; [done|].
      destruct (IH (i + 1) Hx) as (n & Hn & Hl & Ht).
      exists (S n). split_and!; [lia | done |].
      simpl. apply not_elem_of_cons. split; [congruence | done].
Qed.

Lemma QList_indexOf_notin x l : x ∉ l → QList.indexOf x l = -1.
Proof. apply QList_indexOf_from_notin. Qed.

Lemma QList_indexOf_elem x l :
  x ∈ l →
  ∃ n : nat, QList.indexOf x l = Z.of_nat n ∧ l !! n = Some x ∧ x ∉ take n l.
Proof.
  intros Hx. destruct (QList_indexOf_from_elem x l 0 Hx) as (n & Hn & ?).
  exists n. unfold QList.indexOf. rewrite Hn. split; [lia | done].
Qed.

Lemma QList_removeAt_nat (n : nat) l :
  (n < length l)%nat → QList.removeAt (Z.of_nat n) l = delete n l.
Proof.
  intros Hn. unfold QList.removeAt.
  rewrite decide_True by (unfold QList.in_range; lia).
  by rewrite Nat2Z.id.
Qed.

Lemma QList_removeAt_out i l : ¬ QList.in_range i l → QList.removeAt i l = l.
Proof. intros Hi. unfold QList.removeAt. by rewrite decide_False. Qed.

(** Deleting position [n] of a duplicate-free list removes exactly the key
    stored there. *)
Lemma delete_NoDup_elem (n : nat) x l :
  NoDup l → l !! n = Some x →
  NoDup (delete n l) ∧ ∀ y, y ∈ delete n l ↔ y ∈ l ∧ y ≠ x.
Proof.
  intros Hnd Hn.
  pose proof (take_drop_middle l n x Hn) as Hl.
  rewrite delete_take_drop.
  set (l1 := take n l) in *. set (l2 := drop (S n) l) in *.
  clearbody l1 l2. clear Hn. subst l.
  apply NoDup_app in Hnd as (Hnd1 & Hdis & Hnd2).
  apply NoDup_cons in Hnd2 as (Hx2 & Hnd2).
  split.
  - apply NoDup_app. split_and!; [done | | done].
    intros y Hy1 Hy2. apply (Hdis y Hy1). by right.
  - intros y. rewrite !elem_of_app, elem_of_cons. split.
    + intros [Hy|Hy].
      * split; [by left|]. intros ->. apply (Hdis x Hy). by left.
      * split; [by right; right|]. by intros ->.
    + intros [[Hy|[->|Hy]] Hne]; [by left | done | by right].
Qed.

Lemma QList_removeAll_elem x y l : y ∈ QList.removeAll x l ↔ y ∈ l ∧ y ≠ x.
Proof.
  induction l as [|z l IH]; simpl.
  - split; [by intros ?%not_elem_of_nil | by intros [?%not_elem_of_nil _]].
  - case_decide as Hz; subst.
    + rewrite IH, elem_of_cons. naive_solver.
    + rewrite !elem_of_cons, IH. naive_solver.
Qed.

(** [removeAll] keeps every other entry, in place and as often as it was
    there. *)
Lemma QList_removeAll_filter x l :
  QList.removeAll x l = filter (λ y, y ≠ x) l.
Proof.
  induction l as [|y l IH]; simpl; [done|].
  case_decide; subst.
  - by rewrite filter_cons_False by (intros Hne; by apply Hne).
  - rewrite filter_cons_True by done. by rewrite IH.
Qed.

Lemma QList_removeAll_notin x l : x ∉ l → QList.removeAll x l = l.
Proof.
  induction l as [|z l IH]; simpl; [done|].
  intros [Hne Hl]%not_elem_of_cons.
  rewrite decide_False by congruence. by rewrite IH.
Qed.

Lemma QList_last_elem x l : QList.last l = Some x → x ∈ l.
Proof.
  unfold QList.last. intros Hl. apply last_Some in Hl as [l' ->].
  apply elem_of_app. right. by left.
Qed.

Lemma QList_at_Some i l :
  QList.in_range i l → ∃ x, QList.at_ i l = Some x ∧ l !! Z.to_nat i = Some x.
Proof.
  intros Hi. unfold QList.at_. rewrite decide_True by done.
  destruct (lookup_lt_is_Some_2 l (Z.to_nat i)) as [x Hx].
  { unfold QList.in_range in Hi. lia. }
  by exists x.
Qed.
End qlist_facts.

(** * The unique-key container keeps store and order in step *)
Section ordered_qmap_invariant.
Context {K T : Type} `{Countable K} `{DefaultCtor K} `{DefaultCtor T}.
Implicit Types (m : OrderedQMap.t K T) (k : K) (v : T).

Lemma I1_pointwise m :
  OrderedQMap.I1 m ↔
  ∀ k, k ∈ OrderedQMap.order m ↔ is_Some (OrderedQMap.store m !! k).
Proof.
  unfold OrderedQMap.I1. rewrite set_eq.
  apply forall_proper. intros k. by rewrite elem_of_list_to_set, elem_of_dom.
Qed.

Lemma Inv_I3 m : OrderedQMap.Inv m → OrderedQMap.I3 m.
Proof.
  intros [Hset Hdup]. unfold OrderedQMap.I3, OrderedQMap.size, QMap.size.
  rewrite <- size_dom, <- Hset. by rewrite size_list_to_set.
Qed.

Lemma Inv_empty : OrderedQMap.Inv (@OrderedQMap.empty K T _ _).
Proof.
  split; [|constructor].
  unfold OrderedQMap.I1. simpl. by rewrite dom_empty_L.
Qed.

(** Binding a key and recording it in the order when it is new. *)
Lemma Inv_bind_append m k v :
  OrderedQMap.Inv m →
  OrderedQMap.Inv
    (OrderedQMap.mk (<[k := v]> (OrderedQMap.store m))
       (if negb (QList.contains k (OrderedQMap.order m))
        then QList.append k (OrderedQMap.order m) else OrderedQMap.order m)).
Proof.
  intros [Hset Hdup]. rewrite I1_pointwise in Hset.
  destruct (QList.contains k (OrderedQMap.order m)) eqn:Hc; simpl.
  - apply QList_contains_true in Hc. split; [|done].
    apply I1_pointwise. simpl. intros j. rewrite lookup_insert. case_decide.
    + subst. split; [by eauto | done].
    + apply Hset.
  - apply QList_contains_false in Hc. unfold QList.append. split.
    + apply I1_pointwise. simpl. intros j.
      rewrite elem_of_app, list_elem_of_singleton, lookup_insert.
      case_decide; subst.
      * split; [by eauto | by right].
      * rewrite Hset. split; [by intros [?|?] | by left].
    + apply NoDup_app. split_and!; [done | | apply NoDup_singleton].
      intros j Hj ->%list_elem_of_singleton. done.
Qed.

Lemma Inv_insert m k v : OrderedQMap.Inv m → OrderedQMap.Inv (OrderedQMap.insert k v m).
Proof. apply Inv_bind_append. Qed.

Lemma Inv_call m k v : OrderedQMap.Inv m → OrderedQMap.Inv (OrderedQMap.call k v m).
Proof. apply Inv_bind_append. Qed.

Lemma Inv_prepend m k v : OrderedQMap.Inv m → OrderedQMap.Inv (OrderedQMap.prepend k v m).
Proof.
  intros [Hset Hdup]. rewrite I1_pointwise in Hset. unfold OrderedQMap.prepend.
  destruct (QList.contains k (OrderedQMap.order m)) eqn:Hc; simpl.
  - apply QList_contains_true in Hc. split; [|done].
    apply I1_pointwise. simpl. intros j. unfold QMap.insert.
    rewrite lookup_insert. case_decide.
    + subst. split; [by eauto | done].
    + apply Hset.
  - apply QList_contains_false in Hc. unfold QList.prepend. split.
    + apply I1_pointwise. simpl. intros j. unfold QMap.insert.
      rewrite elem_of_cons, lookup_insert.
      case_decide; subst.
      * split; [by eauto | by left].
      * rewrite Hset. split; [by intros [?|?] | by right].
    + by apply NoDup_cons.
Qed.

Lemma Inv_subscript m k : OrderedQMap.Inv m → OrderedQMap.Inv (OrderedQMap.subscript k m).
Proof.
  intros HI. unfold OrderedQMap.subscript, QMap.subscript.
  destruct (OrderedQMap.store m !! k) as [v|] eqn:Hk.
  - pose proof (Inv_bind_append m k v HI) as HI'.
    by rewrite (insert_id _ _ _ Hk) in HI'.
  - apply (Inv_bind_append m k default_ctor HI).
Qed.

Lemma Inv_subscript_assign m k v :
  OrderedQMap.Inv m → OrderedQMap.Inv (OrderedQMap.subscript_assign k v m).
Proof.
  intros HI. apply (Inv_subscript m k) in HI.
  destruct HI as [Hset Hdup]. rewrite I1_pointwise in Hset.
  unfold OrderedQMap.subscript_assign. split; [|done].
  apply I1_pointwise. simpl. intros j. rewrite lookup_insert. case_decide.
  - subst. split; [by eauto|]. intros _. apply Hset. simpl.
    unfold QMap.subscript.
    destruct (OrderedQMap.store m !! j) eqn:Hj; [by rewrite Hj|].
    rewrite lookup_insert_eq. by eauto.
  - apply Hset.
Qed.

(** Overwriting the value of a key that is already ordered. *)
Lemma Inv_overwrite m k v :
  OrderedQMap.Inv m → k ∈ OrderedQMap.order m →
  OrderedQMap.Inv (OrderedQMap.mk (<[k := v]> (OrderedQMap.store m)) (OrderedQMap.order m)).
Proof.
  intros [Hset Hdup] Hk. rewrite I1_pointwise in Hset. split; [|done].
  apply I1_pointwise. simpl. intros j. rewrite lookup_insert. case_decide.
  - subst. split; [by eauto | done].
  - apply Hset.
Qed.

(** Dropping position [n] of the order together with the key stored there. *)
Lemma Inv_drop m (n : nat) k :
  OrderedQMap.Inv m → OrderedQMap.order m !! n = Some k →
  OrderedQMap.Inv
    (OrderedQMap.mk (delete k (OrderedQMap.store m)) (delete n (OrderedQMap.order m))).
Proof.
  intros [Hset Hdup] Hn. rewrite I1_pointwise in Hset.
  destruct (delete_NoDup_elem n k _ Hdup Hn) as [Hnd Hel].
  split; [|done].
  apply I1_pointwise. simpl. intros j. rewrite Hel, lookup_delete.
  case_decide.
  - subst. split; [by intros [_ ?] | by intros [? ?]].
  - rewrite Hset. split; [by intros [? _] | intros ?; split; [done | congruence]].
Qed.

Lemma Inv_remove m k :
  OrderedQMap.Inv m → k ∈ OrderedQMap.order m →
  OrderedQMap.Inv (OrderedQMap.remove k m).2.
Proof.
  intros HI Hk. unfold OrderedQMap.remove. simpl.
  destruct (QList_indexOf_elem k _ Hk) as (n & Hi & Hn & _).
  rewrite Hi, QList_removeAt_nat by (by eapply lookup_lt_Some).
  by apply Inv_drop.
Qed.
End ordered_qmap_invariant.

Section ordered_qmap_calls.
Context {K T : Type} `{Countable K} `{DefaultCtor K} `{DefaultCtor T}.
Implicit Types (m : OrderedQMap.t K T) (k : K) (v : T).
Implicit Types (c : OrderedQMap.call_t K T) (cs : list (OrderedQMap.call_t K T)).

Lemma valid_index_in_range m i :
  OrderedQMap.Inv m → 0 ≤ i < OrderedQMap.size m →
  QList.in_range i (OrderedQMap.order m).
Proof.
  intros HI Hi. pose proof (Inv_I3 m HI) as Hlen.
  unfold OrderedQMap.I3 in Hlen. unfold QList.in_range. lia.
Qed.

Lemma nonempty_order m :
  OrderedQMap.Inv m → OrderedQMap.isEmpty m = false →
  ∃ k, QList.last (OrderedQMap.order m) = Some k.
Proof.
  intros [Hset _] Hne. unfold OrderedQMap.isEmpty, QMap.isEmpty in Hne.
  apply bool_decide_eq_false in Hne.
  apply last_is_Some. intros Hnil. apply Hne.
  apply dom_empty_inv_L. rewrite <- Hset, Hnil. done.
Qed.

(** An admissible call has a defined result, and the result is consistent. *)
Lemma exec_Inv c m :
  OrderedQMap.Inv m → OrderedQMap.admissible c m = true →
  ∃ m', OrderedQMap.exec c m = Some m' ∧ OrderedQMap.Inv m'.
Proof.
  intros HI Hadm. destruct c as [k v|k v|i v|k|i| | |k v|k|k v]; simpl in *.
  - eexists; split; [done | by apply Inv_insert].
  - eexists; split; [done | by apply Inv_prepend].
  - apply bool_decide_eq_true in Hadm.
    destruct (QList_at_Some i _ (valid_index_in_range m i HI Hadm)) as (x & Hat & Hx).
    unfold OrderedQMap.replaceAt. rewrite Hat. simpl.
    eexists; split; [done|]. apply Inv_overwrite; [done|].
    by eapply list_elem_of_lookup_2.
  - apply QList_contains_true in Hadm.
    eexists; split; [done | by apply Inv_remove].
  - apply bool_decide_eq_true in Hadm.
    pose proof (valid_index_in_range m i HI Hadm) as Hr.
    destruct (QList_at_Some i _ Hr) as (x & _ & Hx).
    eexists; split; [done|].
    unfold OrderedQMap.key, QList.value, QList.removeAt.
    rewrite !decide_True by done. rewrite Hx. simpl.
    by apply Inv_drop.
  - apply negb_true_iff in Hadm.
    destruct (nonempty_order m HI Hadm) as [x Hx].
    unfold OrderedQMap.removeLast. rewrite Hx. simpl.
    eexists; split; [done|]. apply Inv_remove; [done|].
    by apply QList_last_elem.
  - eexists; split; [done | apply Inv_empty].
  - eexists; split; [done | by apply Inv_call].
  - eexists; split; [done | by apply Inv_subscript].
  - eexists; split; [done | by apply Inv_subscript_assign].
Qed.

Lemma run_Inv cs m :
  OrderedQMap.Inv m → OrderedQMap.admissible_seq cs m = true →
  ∃ m', OrderedQMap.run cs m = Some m' ∧ OrderedQMap.Inv m'.
Proof.
  revert m. induction cs as [|c cs IH]; intros m HI Hadm; simpl in *.
  - by exists m.
  - apply andb_true_iff in Hadm as [Hc Hcs].
    destruct (exec_Inv c m HI Hc) as (m1 & Hex & HI1).
    rewrite Hex in *. simpl. by apply IH.
Qed.

(** C1: any sequence of admissible public mutating calls, started on the
    empty map, runs to a map in which the keys of the order sequence are
    exactly the keys of the store (I1), no key is ordered twice (I2), and
    the order sequence is as long as the store is large. *)
Theorem C1_mutators_keep_store_and_order_in_step cs :
  OrderedQMap.admissible_seq cs OrderedQMap.empty = true →
  ∃ m, OrderedQMap.run cs OrderedQMap.empty = Some m ∧
       list_to_set (OrderedQMap.order m) =@{gset K} dom (OrderedQMap.store m) ∧
       NoDup (OrderedQMap.order m) ∧
       Z.of_nat (length (OrderedQMap.order m)) = OrderedQMap.size m.
Proof.
  intros Hadm.
  destruct (run_Inv cs OrderedQMap.empty Inv_empty Hadm) as (m & Hrun & HI).
  exists m. split; [done|]. pose proof (Inv_I3 m HI) as Hlen.
  destruct HI as [Hset Hdup]. done.
Qed.
End ordered_qmap_calls.

Lemma C1_witness :
  OrderedQMap.admissible_seq demo_calls OrderedQMap.empty = true ∧
  ∃ m, OrderedQMap.run demo_calls OrderedQMap.empty = Some m ∧
       list_to_set (OrderedQMap.order m) =@{gset string} dom (OrderedQMap.store m) ∧
       NoDup (OrderedQMap.order m) ∧
       Z.of_nat (length (OrderedQMap.order m)) = OrderedQMap.size m.
Proof.
  split; [vm_compute; reflexivity|].
  apply (C1_mutators_keep_store_and_order_in_step demo_calls).
  vm_compute. reflexivity.
Defined.

(** * Single calls on the unique-key container *)
Section ordered_qmap_single_calls.
Context {K T : Type} `{Countable K} `{DefaultCtor K} `{DefaultCtor T}.
Implicit Types (m : OrderedQMap.t K T) (k : K) (v : T).

Lemma remove_present m key :
  OrderedQMap.I2 m → key ∈ OrderedQMap.order m →
  ∃ n : nat,
    (OrderedQMap.remove key m).1 = Z.of_nat n ∧
    OrderedQMap.order m !! n = Some key ∧
    OrderedQMap.order (OrderedQMap.remove key m).2 = delete n (OrderedQMap.order m) ∧
    key ∉ OrderedQMap.order (OrderedQMap.remove key m).2.
Proof.
  intros Hdup Hk. destruct (QList_indexOf_elem key _ Hk) as (n & Hi & Hn & _).
  exists n. unfold OrderedQMap.remove. simpl.
  rewrite Hi, QList_removeAt_nat by (by eapply lookup_lt_Some).
  split_and!; [done..|].
  destruct (delete_NoDup_elem n key _ Hdup Hn) as [_ Hel].
  rewrite Hel. by intros [_ ?].
Qed.

Lemma remove_absent m key :
  OrderedQMap.I1 m → key ∉ OrderedQMap.order m →
  OrderedQMap.remove key m = (-1, m).
Proof.
  intros Hset Hk. rewrite I1_pointwise in Hset.
  unfold OrderedQMap.remove. rewrite (QList_indexOf_notin key _ Hk).
  rewrite QList_removeAt_out by (unfold QList.in_range; lia).
  destruct m as [st ord]. simpl in *. do 2 f_equal.
  apply delete_id. apply eq_None_not_Some. by rewrite <- Hset.
Qed.

(** C4: on a consistent map, [remove(key)] of a present key returns the
    position the key had, deletes that position from the order sequence and
    the key from the store, after which the key is in neither; on an absent
    key it returns -1 and leaves the map as it was. *)
Theorem C4_remove_returns_position_or_minus_one m key :
  OrderedQMap.Inv m →
  (OrderedQMap.contains key m = true →
     0 ≤ (OrderedQMap.remove key m).1 ∧
     (OrderedQMap.remove key m).1 = OrderedQMap.keyOrder key m ∧
     OrderedQMap.keys m !! Z.to_nat (OrderedQMap.remove key m).1 = Some key ∧
     OrderedQMap.keys (OrderedQMap.remove key m).2 =
       delete (Z.to_nat (OrderedQMap.remove key m).1) (OrderedQMap.keys m) ∧
     OrderedQMap.store (OrderedQMap.remove key m).2 = delete key (OrderedQMap.store m) ∧
     OrderedQMap.contains key (OrderedQMap.remove key m).2 = false ∧
     OrderedQMap.store (OrderedQMap.remove key m).2 !! key = None) ∧
  (OrderedQMap.contains key m = false →
     OrderedQMap.remove key m = (-1, m)).
Proof.
  intros [Hset Hdup]. split; intros Hc.
  - apply QList_contains_true in Hc.
    destruct (remove_present m key Hdup Hc) as (n & Hi & Hn & Hord & Hnot).
    unfold OrderedQMap.keys. rewrite Hi, Nat2Z.id.
    split_and!; [lia | by rewrite <- Hi | done | done | done | |].
    + unfold OrderedQMap.contains. by apply QList_contains_false.
    + simpl. apply lookup_delete_eq.
  - apply QList_contains_false in Hc. by apply remove_absent.
Qed.

(** C5: [insert] of a key the map already contains stores the new value and
    leaves the order sequence, hence the key's position, as it was. *)
Theorem C5_insert_existing_keeps_position m key newValue :
  OrderedQMap.contains key m = true →
  OrderedQMap.value key (OrderedQMap.insert key newValue m) = newValue ∧
  OrderedQMap.keyOrder key (OrderedQMap.insert key newValue m) =
    OrderedQMap.keyOrder key m ∧
  OrderedQMap.keys (OrderedQMap.insert key newValue m) = OrderedQMap.keys m.
Proof.
  intros Hc. unfold OrderedQMap.contains in Hc.
  assert (OrderedQMap.keys (OrderedQMap.insert key newValue m) = OrderedQMap.keys m) as Hk.
  { unfold OrderedQMap.keys, OrderedQMap.insert. simpl. by rewrite Hc. }
  split_and!; [|unfold OrderedQMap.keyOrder; by rewrite Hk|done].
  unfold OrderedQMap.value, OrderedQMap.value_or, OrderedQMap.insert, QMap.value, QMap.insert.
  simpl. by rewrite lookup_insert_eq.
Qed.

(** [value(int)] looks up whatever key [QList::value] hands back. *)
Lemma value_at_valid m index key :
  QList.in_range index (OrderedQMap.order m) →
  OrderedQMap.order m !! Z.to_nat index = Some key →
  OrderedQMap.value_at index m = OrderedQMap.value key m.
Proof.
  intros Hr Hk. unfold OrderedQMap.value_at, QList.value.
  rewrite decide_True by done. by rewrite Hk.
Qed.

Lemma value_at_invalid m index :
  ¬ QList.in_range index (OrderedQMap.order m) →
  OrderedQMap.value_at index m = OrderedQMap.value default_ctor m.
Proof.
  intros Hr. unfold OrderedQMap.value_at, QList.value.
  by rewrite decide_False by done.
Qed.
End ordered_qmap_single_calls.

Lemma demo_map_Inv : OrderedQMap.Inv demo_map.
Proof. do 3 apply Inv_insert. apply Inv_empty. Qed.

Lemma C4_witness :
  OrderedQMap.Inv demo_map ∧
  (OrderedQMap.remove "a"%string demo_map).1 = OrderedQMap.keyOrder "a"%string demo_map ∧
  OrderedQMap.keys (OrderedQMap.remove "a"%string demo_map).2 = ["b"; "c"]%string ∧
  OrderedQMap.remove "zz"%string demo_map = (-1, demo_map).
Proof.
  assert (OrderedQMap.Inv demo_map) as HI.
  { split; [vm_compute; reflexivity|].
    apply (bool_decide_unpack _). vm_compute. exact I. }
  split; [exact HI|].
  destruct (C4_remove_returns_position_or_minus_one demo_map "a"%string HI)
    as [Hpresent _].
  destruct (C4_remove_returns_position_or_minus_one demo_map "zz"%string HI)
    as [_ Habsent].
  destruct (Hpresent eq_refl) as (_ & Hpos & _ & Hkeys & _).
  split_and!; [exact Hpos | rewrite Hkeys; reflexivity | exact (Habsent eq_refl)].
Defined.

Lemma C5_witness :
  OrderedQMap.contains "a"%string demo_map = true ∧
  OrderedQMap.value "a"%string (OrderedQMap.insert "a"%string 10 demo_map) = 10 ∧
  OrderedQMap.keyOrder "a"%string (OrderedQMap.insert "a"%string 10 demo_map) =
    OrderedQMap.keyOrder "a"%string demo_map ∧
  OrderedQMap.keys (OrderedQMap.insert "a"%string 10 demo_map) = OrderedQMap.keys demo_map.
Proof.
  split; [reflexivity|].
  apply (C5_insert_existing_keeps_position demo_map "a"%string 10). reflexivity.
Defined.

(** C9: on [{"" ↦ 5}] the index 7 is invalid, yet [value(7)] is 5, the
    value bound to the default-constructed key, and not [int()]. *)
Theorem C9_value_at_invalid_index_finds_default_key :
  ¬ QList.in_range 7 (OrderedQMap.order empty_key_map) ∧
  OrderedQMap.value_at 7 empty_key_map = 5 ∧
  OrderedQMap.value_at 7 empty_key_map ≠ (default_ctor : Z).
Proof.
  split_and!.
  - unfold QList.in_range. simpl. lia.
  - reflexivity.
  - vm_compute. discriminate.
Qed.

(** * Stream operators of the unique-key container *)
Section ordered_qmap_stream.
Context {K T : Type} `{Countable K} `{DefaultCtor K} `{DefaultCtor T}.
Implicit Types (m obj : OrderedQMap.t K T) (k : K) (ks : list K) (tmp : gmap K T).

Lemma QList_indexOf_from_app (x : K) (l l' : list K) i :
  x ∈ l → QList.indexOf_from x (l ++ l') i = QList.indexOf_from x l i.
Proof.
  revert i. induction l as [|y l IH]; intros i Hx; simpl.
  - by apply not_elem_of_nil in Hx.
  - case_decide; [done|].
    apply elem_of_cons in Hx as [->|Hx]; [done | by apply IH].
Qed.

(** The payload built by the loop of [operator<<]. *)
Lemma payload_lookup (f : K → T) ks tmp k :
  foldl (λ acc j, QMap.insert j (f j) acc) tmp ks !! k =
  if decide (k ∈ ks) then Some (f k) else tmp !! k.
Proof.
  revert tmp. induction ks as [|j ks IH]; intros tmp; cbn [foldl].
  - case_decide as Hk; [by apply not_elem_of_nil in Hk | done].
  - rewrite IH. unfold QMap.insert. rewrite lookup_insert.
    repeat case_decide; subst; first [done | set_solver].
Qed.

(** The loop of [operator>>]: the store after replaying [ks]. *)
Lemma replay_store (f : K → T) ks obj k :
  OrderedQMap.store (foldl (λ o j, OrderedQMap.insert j (f j) o) obj ks) !! k =
  if decide (k ∈ ks) then Some (f k) else OrderedQMap.store obj !! k.
Proof.
  revert obj. induction ks as [|j ks IH]; intros obj; cbn [foldl].
  - case_decide as Hk; [by apply not_elem_of_nil in Hk | done].
  - rewrite IH. cbn [OrderedQMap.insert OrderedQMap.store]. unfold QMap.insert.
    rewrite lookup_insert.
    repeat case_decide; subst; first [done | set_solver].
Qed.

(** The order after replaying [ks]: what was there, then the keys of [ks]
    that were not, each once, in their order of first appearance. *)
Lemma replay_order (f : K → T) ks obj :
  ∃ suffix,
    OrderedQMap.order (foldl (λ o j, OrderedQMap.insert j (f j) o) obj ks) =
      OrderedQMap.order obj ++ suffix ∧
    (∀ k, k ∈ suffix ↔ k ∈ ks ∧ k ∉ OrderedQMap.order obj) ∧
    NoDup suffix ∧ suffix `sublist_of` ks.
Proof.
  revert obj. induction ks as [|j ks IH]; intros obj; simpl.
  - exists []. rewrite app_nil_r. split_and!; [done | | constructor | done].
    intros k. split; [by intros ?%not_elem_of_nil | by intros [?%not_elem_of_nil _]].
  - destruct (IH (OrderedQMap.insert j (f j) obj)) as (suf & Hord & Hel & Hnd & Hsub).
    rewrite Hord. simpl.
    destruct (QList.contains j (OrderedQMap.order obj)) eqn:Hc; simpl in *;
      rewrite Hc in Hel; simpl in Hel.
    + apply QList_contains_true in Hc.
      exists suf. split_and!; [done | | done | by apply sublist_cons].
      intros k. rewrite Hel, elem_of_cons. split.
      * intros [? ?]. split; [by right | done].
      * intros [[->|?] ?]; [done | by split].
    + apply QList_contains_false in Hc. unfold QList.append in *.
      exists (j :: suf). split_and!.
      * by rewrite <- app_assoc.
      * intros k. rewrite !elem_of_cons, Hel, elem_of_app, list_elem_of_singleton.
        split.
        -- intros [->|[? Hn]]; [split; [by left | done]|].
           split; [by right|]. intros ?. apply Hn. by left.
        -- intros [[->|?] Hn]; [by left|].
           destruct (decide (k = j)) as [->|?]; [by left|].
           right. split; [done|]. by intros [?|?].
      * apply NoDup_cons. split; [|done].
        rewrite Hel. intros [_ Hn]. apply Hn. apply elem_of_app. right.
        by apply list_elem_of_singleton.
      * by apply sublist_skip.
Qed.

(** Replaying keys that are all new and pairwise distinct appends them. *)
Lemma replay_order_fresh (f : K → T) ks obj :
  NoDup ks → (∀ k, k ∈ ks → k ∉ OrderedQMap.order obj) →
  OrderedQMap.order (foldl (λ o j, OrderedQMap.insert j (f j) o) obj ks) =
    OrderedQMap.order obj ++ ks.
Proof.
  revert obj. induction ks as [|j ks IH]; intros obj Hnd Hfresh; simpl.
  - by rewrite app_nil_r.
  - apply NoDup_cons in Hnd as [Hj Hnd].
    assert (QList.contains j (OrderedQMap.order obj) = false) as Hc.
    { apply QList_contains_false, Hfresh. by left. }
    rewrite IH; [|done|]; simpl; rewrite Hc; simpl; unfold QList.append.
    + by rewrite <- app_assoc.
    + intros k Hk [Hin|Heq]%elem_of_app.
      * apply (Hfresh k); [by right | done].
      * apply list_elem_of_singleton in Heq. by subst.
Qed.
End ordered_qmap_stream.

Section ordered_qmap_round_trip.
Context {K T : Type} `{Countable K} `{DefaultCtor K} `{DefaultCtor T}.
Implicit Types (m obj : OrderedQMap.t K T) (k : K) (ks : list K) (tmp : gmap K T).

(** What [operator<<] puts on an empty stream. *)
Lemma stream_out_chunks m :
  OrderedQMap.stream_out [] m =
  [ QDataStream.KeyList (OrderedQMap.keys m);
    QDataStream.MapPayload
      (foldl (λ acc j, QMap.insert j (OrderedQMap.value j m) acc) ∅
         (OrderedQMap.keys m)) ].
Proof. reflexivity. Qed.

(** What [operator>>] makes of a key list followed by a payload. *)
Lemma stream_in_chunks ks tmp rest obj :
  OrderedQMap.stream_in
    (QDataStream.KeyList ks :: QDataStream.MapPayload tmp :: rest) obj =
  (rest, foldl (λ o j, OrderedQMap.insert j (QMap.value j default_ctor tmp) o) obj ks).
Proof. reflexivity. Qed.

(** Writing a consistent map and reading it back into an empty one gives
    the map back. *)
Lemma stream_round_trip m :
  OrderedQMap.Inv m →
  OrderedQMap.stream_in (OrderedQMap.stream_out [] m) OrderedQMap.empty = ([], m).
Proof.
  intros [Hset Hdup]. rewrite I1_pointwise in Hset.
  rewrite stream_out_chunks, stream_in_chunks. f_equal.
  set (tmp := foldl _ ∅ (OrderedQMap.keys m)).
  set (f := λ j, QMap.value j default_ctor tmp).
  pose proof (replay_order_fresh f (OrderedQMap.keys m) OrderedQMap.empty Hdup) as Hord.
  pose proof (replay_store f (OrderedQMap.keys m) OrderedQMap.empty) as Hst.
  destruct (foldl _ OrderedQMap.empty (OrderedQMap.keys m)) as [st ord].
  destruct m as [st0 ord0]. simpl in *. f_equal.
  - apply map_eq. intros k. rewrite Hst. case_decide as Hk.
    + apply Hset in Hk as [v Hv]. rewrite Hv. f_equal.
      unfold f, QMap.value, tmp.
      rewrite payload_lookup, decide_True by (apply Hset; eauto).
      simpl. unfold OrderedQMap.value, OrderedQMap.value_or, QMap.value. simpl.
      by rewrite Hv.
    + rewrite lookup_empty. symmetry. apply eq_None_not_Some. by rewrite <- Hset.
  - apply Hord. intros k _. apply not_elem_of_nil.
Qed.

(** C2: a consistent map written to a stream and read back into an empty
    map has the same [keys()] sequence and the same [value(key)] for every
    key. *)
Theorem C2_stream_round_trip_keeps_keys_and_values m :
  OrderedQMap.Inv m →
  OrderedQMap.keys
    (OrderedQMap.stream_in (OrderedQMap.stream_out [] m) OrderedQMap.empty).2 =
    OrderedQMap.keys m ∧
  ∀ key,
    OrderedQMap.value key
      (OrderedQMap.stream_in (OrderedQMap.stream_out [] m) OrderedQMap.empty).2 =
    OrderedQMap.value key m.
Proof. intros HI. by rewrite (stream_round_trip m HI). Qed.

(** C10: reading a stream into a map that already has contents does not
    clear it.  The order sequence afterwards is the old one followed by the
    stream's keys that were not in it (each once, in stream order), so a key
    present before keeps its position; every key of the stream gets the
    stream's value; every other key keeps its binding. *)
Theorem C10_stream_in_merges_into_existing_contents ks tmp rest obj :
  let obj' :=
    (OrderedQMap.stream_in
       (QDataStream.KeyList ks :: QDataStream.MapPayload tmp :: rest) obj).2 in
  (∃ suffix,
     OrderedQMap.keys obj' = OrderedQMap.keys obj ++ suffix ∧
     (∀ k, k ∈ suffix ↔ k ∈ ks ∧ k ∉ OrderedQMap.keys obj) ∧
     NoDup suffix ∧ suffix `sublist_of` ks) ∧
  (∀ k, OrderedQMap.contains k obj = true →
     OrderedQMap.contains k obj' = true ∧
     OrderedQMap.keyOrder k obj' = OrderedQMap.keyOrder k obj) ∧
  (∀ k, k ∈ ks →
     OrderedQMap.value k obj' = QMap.value k default_ctor tmp) ∧
  (∀ k, k ∉ ks →
     OrderedQMap.store obj' !! k = OrderedQMap.store obj !! k).
Proof.
  intros obj'. unfold obj'. clear obj'. rewrite stream_in_chunks. cbn [snd].
  destruct (replay_order (λ j, QMap.value j default_ctor tmp) ks obj)
    as (suf & Hord & Hel & Hnd & Hsub).
  pose proof (replay_store (λ j, QMap.value j default_ctor tmp) ks obj) as Hst.
  cbv beta in Hord, Hst.
  split_and!.
  - by exists suf.
  - intros k Hc. unfold OrderedQMap.contains, OrderedQMap.keyOrder, OrderedQMap.keys in *.
    rewrite Hord. apply QList_contains_true in Hc. split.
    + apply QList_contains_true, elem_of_app. by left.
    + unfold QList.indexOf. by apply QList_indexOf_from_app.
  - intros k Hk. unfold OrderedQMap.value, OrderedQMap.value_or, QMap.value at 1.
    by rewrite Hst, decide_True.
  - intros k Hk. by rewrite Hst, decide_False.
Qed.
End ordered_qmap_round_trip.

Lemma C2_witness :
  OrderedQMap.Inv demo_map ∧
  OrderedQMap.keys
    (OrderedQMap.stream_in (OrderedQMap.stream_out [] demo_map) OrderedQMap.empty).2 =
    OrderedQMap.keys demo_map ∧
  ∀ key,
    OrderedQMap.value key
      (OrderedQMap.stream_in (OrderedQMap.stream_out [] demo_map) OrderedQMap.empty).2 =
    OrderedQMap.value key demo_map.
Proof.
  assert (OrderedQMap.Inv demo_map) as HI.
  { split; [vm_compute; reflexivity|].
    apply (bool_decide_unpack _). vm_compute. exact I. }
  split; [exact HI|].
  exact (C2_stream_round_trip_keeps_keys_and_values demo_map HI).
Defined.

(** * The multi-map container *)
Section ordered_qmultimap_calls.
Context {K T : Type} `{Countable K}.
Implicit Types (m : OrderedQMultiMap.t K T) (k key : K) (v : T).

Lemma QMultiMap_values_insert k j v (st : gmap K (list T)) :
  QMultiMap.values j (QMultiMap.insert k v st) =
  if decide (k = j) then v :: QMultiMap.values k st else QMultiMap.values j st.
Proof.
  unfold QMultiMap.insert, QMultiMap.values at 1. rewrite lookup_insert.
  by case_decide; subst.
Qed.

Lemma QMultiMap_values_replace k j v (st : gmap K (list T)) :
  QMultiMap.values j (QMultiMap.replace k v st) =
  if decide (k = j) then v :: tail (QMultiMap.values k st)
  else QMultiMap.values j st.
Proof.
  unfold QMultiMap.replace, QMultiMap.values at 1. rewrite lookup_insert.
  by case_decide; subst.
Qed.

Lemma QMultiMap_values_remove k j (st : gmap K (list T)) :
  QMultiMap.values j (QMultiMap.remove k st).2 =
  if decide (k = j) then [] else QMultiMap.values j st.
Proof.
  unfold QMultiMap.remove, QMultiMap.values at 1. simpl. rewrite lookup_delete.
  by case_decide; subst.
Qed.

(** C6: [insert] on the multi-map appends the key to the order sequence
    whether or not it is already there, and adds the value in front of the
    key's values.  Two inserts of one key therefore leave two more order
    entries for it and both values among the key's values; on an empty
    container the order is then exactly [key; key]. *)
Theorem C6_multi_insert_always_appends m key v1 v2 :
  OrderedQMultiMap.keys (OrderedQMultiMap.insert key v1 m) =
    OrderedQMultiMap.keys m ++ [key] ∧
  OrderedQMultiMap.values key (OrderedQMultiMap.insert key v1 m) =
    v1 :: OrderedQMultiMap.values key m ∧
  OrderedQMultiMap.keys
    (OrderedQMultiMap.insert key v2 (OrderedQMultiMap.insert key v1 m)) =
    OrderedQMultiMap.keys m ++ [key; key] ∧
  OrderedQMultiMap.values key
    (OrderedQMultiMap.insert key v2 (OrderedQMultiMap.insert key v1 m)) =
    v2 :: v1 :: OrderedQMultiMap.values key m ∧
  OrderedQMultiMap.count key
    (OrderedQMultiMap.insert key v2 (OrderedQMultiMap.insert key v1 m)) =
    OrderedQMultiMap.count key m + 2 ∧
  OrderedQMultiMap.keys
    (OrderedQMultiMap.insert key v2
       (OrderedQMultiMap.insert key v1 OrderedQMultiMap.empty)) = [key; key] ∧
  OrderedQMultiMap.values key
    (OrderedQMultiMap.insert key v2
       (OrderedQMultiMap.insert key v1 OrderedQMultiMap.empty)) = [v2; v1].
Proof.
  assert (∀ m' v, OrderedQMultiMap.values key (OrderedQMultiMap.insert key v m') =
                  v :: OrderedQMultiMap.values key m') as Hval.
  { intros m' v. unfold OrderedQMultiMap.values, OrderedQMultiMap.insert. simpl.
    by rewrite QMultiMap_values_insert, decide_True. }
  split_and!.
  - done.
  - apply Hval.
  - unfold OrderedQMultiMap.keys, OrderedQMultiMap.insert, QList.append. simpl.
    by rewrite <- app_assoc.
  - by rewrite !Hval.
  - unfold OrderedQMultiMap.count, QMultiMap.count.
    fold (OrderedQMultiMap.values key
            (OrderedQMultiMap.insert key v2 (OrderedQMultiMap.insert key v1 m))).
    rewrite !Hval. unfold OrderedQMultiMap.values. simpl. lia.
  - done.
  - by rewrite !Hval.
Qed.

(** What [remove] does, for any key type. *)
Lemma multi_remove_spec m key :
  (OrderedQMultiMap.remove key m).1 =
    Z.of_nat (length (OrderedQMultiMap.values key m)) ∧
  (OrderedQMultiMap.values key m = [] → (OrderedQMultiMap.remove key m).1 = 0) ∧
  OrderedQMultiMap.values key (OrderedQMultiMap.remove key m).2 = [] ∧
  (key ∉ OrderedQMultiMap.keys (OrderedQMultiMap.remove key m).2) ∧
  OrderedQMultiMap.contains key (OrderedQMultiMap.remove key m).2 = false ∧
  (∀ j, j ≠ key →
     OrderedQMultiMap.values j (OrderedQMultiMap.remove key m).2 =
       OrderedQMultiMap.values j m ∧
     (j ∈ OrderedQMultiMap.keys (OrderedQMultiMap.remove key m).2 ↔
      j ∈ OrderedQMultiMap.keys m)) ∧
  OrderedQMultiMap.keys (OrderedQMultiMap.remove key m).2 =
    filter (λ j, j ≠ key) (OrderedQMultiMap.keys m) ∧
  OrderedQMultiMap.store (OrderedQMultiMap.remove key m).2 =
    delete key (OrderedQMultiMap.store m).
Proof.
  assert (key ∉ OrderedQMultiMap.keys (OrderedQMultiMap.remove key m).2) as Hnot.
  { unfold OrderedQMultiMap.keys, OrderedQMultiMap.remove. simpl.
    rewrite QList_removeAll_elem. by intros [_ ?]. }
  split_and!.
  - done.
  - intros Hv. unfold OrderedQMultiMap.remove. simpl.
    unfold OrderedQMultiMap.values in Hv. by rewrite Hv.
  - unfold OrderedQMultiMap.values, OrderedQMultiMap.remove. simpl.
    pose proof (QMultiMap_values_remove key key (OrderedQMultiMap.store m)) as Hr.
    rewrite decide_True in Hr by done. exact Hr.
  - done.
  - by apply QList_contains_false.
  - intros j Hj. split.
    + unfold OrderedQMultiMap.values, OrderedQMultiMap.remove. simpl.
      pose proof (QMultiMap_values_remove key j (OrderedQMultiMap.store m)) as Hr.
      rewrite decide_False in Hr by done. exact Hr.
    + unfold OrderedQMultiMap.keys, OrderedQMultiMap.remove. simpl.
      rewrite QList_removeAll_elem. naive_solver.
  - unfold OrderedQMultiMap.keys, OrderedQMultiMap.remove. simpl.
    apply QList_removeAll_filter.
  - done.
Qed.

(** What [replace] does, for any key type. *)
Lemma multi_replace_spec `{DefaultCtor T} m key v :
  OrderedQMultiMap.values key (OrderedQMultiMap.replace key v m) =
    v :: tail (OrderedQMultiMap.values key m) ∧
  OrderedQMultiMap.value key (OrderedQMultiMap.replace key v m) = v ∧
  (∀ j, j ≠ key →
     OrderedQMultiMap.values j (OrderedQMultiMap.replace key v m) =
       OrderedQMultiMap.values j m) ∧
  OrderedQMultiMap.keys (OrderedQMultiMap.replace key v m) =
    (if OrderedQMultiMap.contains key m then OrderedQMultiMap.keys m
     else OrderedQMultiMap.keys m ++ [key]).
Proof.
  assert (OrderedQMultiMap.values key (OrderedQMultiMap.replace key v m) =
          v :: tail (OrderedQMultiMap.values key m)) as Hval.
  { unfold OrderedQMultiMap.values, OrderedQMultiMap.replace. simpl.
    by rewrite QMultiMap_values_replace, decide_True. }
  split_and!.
  - done.
  - unfold OrderedQMultiMap.value, OrderedQMultiMap.value_or, QMultiMap.value.
    fold (OrderedQMultiMap.values key (OrderedQMultiMap.replace key v m)).
    by rewrite Hval.
  - intros j Hj. unfold OrderedQMultiMap.values, OrderedQMultiMap.replace. simpl.
    by rewrite QMultiMap_values_replace, decide_False.
  - unfold OrderedQMultiMap.keys, OrderedQMultiMap.replace, OrderedQMultiMap.contains.
    simpl. by destruct (QList.contains key (OrderedQMultiMap.order m)).
Qed.
End ordered_qmultimap_calls.

(** C7: [remove(key)] on the multi-map returns the number of values the key
    had (0 for a key without values) and removes them all from the store;
    from the order sequence it takes out every occurrence of the key and
    nothing else: the entries of the other keys stay, in their order and as
    often as they were there, and the other keys keep their values.
    After inserting ("x",1) and ("x",2), [remove("x")] returns 2 and leaves
    an empty order sequence; on the order [a; x; a; b; x], [remove("x")]
    returns 2 and leaves [a; a; b]. *)
Theorem C7_multi_remove_drops_all_values_and_entries :
  (∀ (K T : Type) `(Countable K) (m : OrderedQMultiMap.t K T) (key : K),
     (OrderedQMultiMap.remove key m).1 =
       Z.of_nat (length (OrderedQMultiMap.values key m)) ∧
     (OrderedQMultiMap.values key m = [] → (OrderedQMultiMap.remove key m).1 = 0) ∧
     OrderedQMultiMap.values key (OrderedQMultiMap.remove key m).2 = [] ∧
     (key ∉ OrderedQMultiMap.keys (OrderedQMultiMap.remove key m).2) ∧
     OrderedQMultiMap.contains key (OrderedQMultiMap.remove key m).2 = false ∧
     (∀ j, j ≠ key →
        OrderedQMultiMap.values j (OrderedQMultiMap.remove key m).2 =
          OrderedQMultiMap.values j m ∧
        (j ∈ OrderedQMultiMap.keys (OrderedQMultiMap.remove key m).2 ↔
         j ∈ OrderedQMultiMap.keys m)) ∧
     OrderedQMultiMap.keys (OrderedQMultiMap.remove key m).2 =
       filter (λ j, j ≠ key) (OrderedQMultiMap.keys m) ∧
     OrderedQMultiMap.store (OrderedQMultiMap.remove key m).2 =
       delete key (OrderedQMultiMap.store m)) ∧
  OrderedQMultiMap.keys demo_multi = ["x"; "x"]%string ∧
  (OrderedQMultiMap.remove "x"%string demo_multi).1 = 2 ∧
  OrderedQMultiMap.keys (OrderedQMultiMap.remove "x"%string demo_multi).2 = [] ∧
  OrderedQMultiMap.remove "x"%string demo_multi = (2, OrderedQMultiMap.empty) ∧
  OrderedQMultiMap.keys demo_multi_mixed = ["a"; "x"; "a"; "b"; "x"]%string ∧
  (OrderedQMultiMap.remove "x"%string demo_multi_mixed).1 = 2 ∧
  OrderedQMultiMap.keys (OrderedQMultiMap.remove "x"%string demo_multi_mixed).2 =
    ["a"; "a"; "b"]%string ∧
  OrderedQMultiMap.values "a"%string
    (OrderedQMultiMap.remove "x"%string demo_multi_mixed).2 = [3; 1] ∧
  OrderedQMultiMap.values "x"%string
    (OrderedQMultiMap.remove "x"%string demo_multi_mixed).2 = [].
Proof.
  split; [intros K T ? ? m key; apply multi_remove_spec|].
  split_and!; reflexivity.
Qed.

(** C8, as the code has it: [replace(key, value)] overwrites the most
    recently inserted value of the key and keeps the key's older values (a
    key without values gets the one value); no other key changes; the key
    is appended to the order sequence only if it is not in it, so the
    sequence is unchanged for a key that already appears. *)
Theorem C8_multi_replace_overwrites_latest_value :
  ∀ (K T : Type) `(Countable K) (HT : DefaultCtor T)
    (m : OrderedQMultiMap.t K T) (key : K) (v : T),
    OrderedQMultiMap.values key (OrderedQMultiMap.replace key v m) =
      v :: tail (OrderedQMultiMap.values key m) ∧
    OrderedQMultiMap.value key (OrderedQMultiMap.replace key v m) = v ∧
    (∀ j, j ≠ key →
       OrderedQMultiMap.values j (OrderedQMultiMap.replace key v m) =
         OrderedQMultiMap.values j m) ∧
    OrderedQMultiMap.keys (OrderedQMultiMap.replace key v m) =
      (if OrderedQMultiMap.contains key m then OrderedQMultiMap.keys m
       else OrderedQMultiMap.keys m ++ [key]).
Proof. intros K T ? ? HT m key v. apply multi_replace_spec. Qed.

(** C8 as worded fails: with values 2 and 1 stored for "x", [replace("x", 9)]
    leaves 9 and 1; the older value 1 is still stored for the key. *)
Lemma C8_counterexample :
  OrderedQMultiMap.values "x"%string demo_multi = [2; 1] ∧
  OrderedQMultiMap.values "x"%string
    (OrderedQMultiMap.replace "x"%string 9 demo_multi) = [9; 1] ∧
  OrderedQMultiMap.values "x"%string
    (OrderedQMultiMap.replace "x"%string 9 demo_multi) ≠ [9] ∧
  ¬ (∀ (m : OrderedQMultiMap.t string Z) (key : string) (v : Z),
       OrderedQMultiMap.values key (OrderedQMultiMap.replace key v m) = [v]).
Proof.
  split_and!; [reflexivity | reflexivity | vm_compute; discriminate |].
  intros Hall. specialize (Hall demo_multi "x"%string 9).
  vm_compute in Hall. discriminate.
Qed.

(** C3: the multi-map built by insert("x",1), insert("x",2) does not
    survive the stream round trip.  [operator<<] puts [value(k)], the most
    recent value, in the payload once per order entry, so the value 1 never
    reaches the stream and the map read back holds 2 twice. *)
Theorem C3_multi_round_trip_loses_older_values :
  OrderedQMultiMap.keys
    (OrderedQMultiMap.stream_in (OrderedQMultiMap.stream_out [] demo_multi)
       OrderedQMultiMap.empty).2 = OrderedQMultiMap.keys demo_multi ∧
  OrderedQMultiMap.values "x"%string demo_multi = [2; 1] ∧
  OrderedQMultiMap.values "x"%string
    (OrderedQMultiMap.stream_in (OrderedQMultiMap.stream_out [] demo_multi)
       OrderedQMultiMap.empty).2 = [2; 2] ∧
  OrderedQMultiMap.values "x"%string
    (OrderedQMultiMap.stream_in (OrderedQMultiMap.stream_out [] demo_multi)
       OrderedQMultiMap.empty).2 ≠ OrderedQMultiMap.values "x"%string demo_multi.
Proof.
  split_and!; [reflexivity | reflexivity | reflexivity | vm_compute; discriminate].
Qed.

Lemma C10_witness :
  OrderedQMap.contains "a"%string busy_map = true ∧
  OrderedQMap.keys
    (OrderedQMap.stream_in (OrderedQMap.stream_out [] demo_map) busy_map).2 =
    ["q"; "a"; "b"; "c"]%string ∧
  OrderedQMap.keyOrder "a"%string
    (OrderedQMap.stream_in (OrderedQMap.stream_out [] demo_map) busy_map).2 =
    OrderedQMap.keyOrder "a"%string busy_map ∧
  OrderedQMap.value "a"%string
    (OrderedQMap.stream_in (OrderedQMap.stream_out [] demo_map) busy_map).2 = 1 ∧
  OrderedQMap.value "q"%string
    (OrderedQMap.stream_in (OrderedQMap.stream_out [] demo_map) busy_map).2 = 5.
Proof.
  pose proof (C10_stream_in_merges_into_existing_contents
                (OrderedQMap.keys demo_map)
                (foldl (λ acc j, QMap.insert j (OrderedQMap.value j demo_map) acc) ∅
                   (OrderedQMap.keys demo_map))
                [] busy_map) as (_ & Hkept & Hnew & _).
  split_and!.
  - reflexivity.
  - reflexivity.
  - exact (proj2 (Hkept "a"%string eq_refl)).
  - etrans; [|reflexivity].
    apply (Hnew "a"%string). apply (bool_decide_unpack _). vm_compute. exact I.
  - reflexivity.
Defined.

(** * The scenarios of the specification, run on the model *)

Example scenario_ordered_map :
  OrderedQMap.keys demo_map = ["b"; "a"; "c"]%string ∧
  OrderedQMap.at_ 1 demo_map = Some 1 ∧
  (∃ m', OrderedQMap.replaceAt 0 20 demo_map = Some ("b"%string, m') ∧
         OrderedQMap.value "b"%string m' = 20 ∧
         OrderedQMap.keys m' = OrderedQMap.keys demo_map) ∧
  (OrderedQMap.remove "a"%string demo_map).1 = 1 ∧
  OrderedQMap.keys (OrderedQMap.remove "a"%string demo_map).2 = ["b"; "c"]%string.
Proof.
  split_and!; try reflexivity.
  eexists. split_and!; reflexivity.
Qed.

Example scenario_run_demo_calls :
  ∃ m, OrderedQMap.run demo_calls OrderedQMap.empty = Some m ∧
       OrderedQMap.keys m = ["k"]%string ∧ OrderedQMap.value "k"%string m = 7.
Proof. eexists. split_and!; reflexivity. Qed.

(** * More about positions in the order sequence *)
Section qlist_positions.
Context {A : Type} `{EqDecision A}.
Implicit Types (x y : A) (l : list A).

Lemma QList_indexOf_from_shift x l i :
  x ∈ l → QList.indexOf_from x l i = i + QList.indexOf_from x l 0.
Proof.
  revert i. induction l as [|y l IH]; intros i Hx; simpl.
  - by apply not_elem_of_nil in Hx.
  - case_decide; [lia|].
    apply elem_of_cons in Hx as [->|Hx]; [done|].
    rewrite (IH (i + 1) Hx), (IH (0 + 1) Hx). lia.
Qed.

(** In a duplicate-free list a key is found where it is stored. *)
Lemma QList_indexOf_lookup (n : nat) x l :
  NoDup l → l !! n = Some x → QList.indexOf x l = Z.of_nat n.
Proof.
  intros Hnd Hn.
  destruct (QList_indexOf_elem x l) as (n' & Hi & Hn' & _).
  { by eapply list_elem_of_lookup_2. }
  rewrite Hi. f_equal. by eapply NoDup_lookup.
Qed.

Lemma filter_ne_notin x l : x ∉ l → filter (λ y, y ≠ x) l = l.
Proof.
  induction l as [|y l IH]; [done|].
  intros [Hne Hl]%not_elem_of_cons.
  rewrite filter_cons_True by congruence. by rewrite IH.
Qed.

Lemma delete_filter_ne (n : nat) x l :
  NoDup l → l !! n = Some x → delete n l = filter (λ y, y ≠ x) l.
Proof.
  intros Hnd Hn.
  pose proof (take_drop_middle l n x Hn) as Hl.
  rewrite delete_take_drop.
  set (l1 := take n l) in *. set (l2 := drop (S n) l) in *.
  clearbody l1 l2. clear Hn. subst l.
  apply NoDup_app in Hnd as (_ & Hdis & Hnd2).
  apply NoDup_cons in Hnd2 as (Hx2 & _).
  rewrite filter_app, filter_cons_False by (intros Hne; by apply Hne).
  rewrite !filter_ne_notin; [done..|].
  intros Hx1. apply (Hdis x Hx1). by left.
Qed.

Lemma QList_last_snoc_inv x l :
  QList.last l = Some x → ∃ l', l = l' ++ [x].
Proof. unfold QList.last. by intros ?%last_Some. Qed.
End qlist_positions.

Section ordered_qmap_positions.
Context {K T : Type} `{Countable K} `{DefaultCtor K} `{DefaultCtor T}.
Implicit Types (m : OrderedQMap.t K T) (k key : K) (v : T).

(** X1: [keyOrder] answers -1 exactly for the keys [contains] denies. *)
Theorem keyOrder_minus_one_iff_not_contains m key :
  OrderedQMap.keyOrder key m = -1 ↔ OrderedQMap.contains key m = false.
Proof.
  unfold OrderedQMap.keyOrder, OrderedQMap.contains, OrderedQMap.keys.
  rewrite QList_contains_false. split.
  - intros Hi Hk. destruct (QList_indexOf_elem key _ Hk) as (n & Hn & _). lia.
  - apply QList_indexOf_notin.
Qed.

(** X2: For a contained key, [keyOrder] is a valid index, [key] at that index
    is the key again, and [at] and [value(int)] there give the key's
    value. *)
Theorem keyOrder_then_key_round_trip m key :
  OrderedQMap.contains key m = true →
  0 ≤ OrderedQMap.keyOrder key m < Z.of_nat (length (OrderedQMap.keys m)) ∧
  OrderedQMap.key (OrderedQMap.keyOrder key m) m = key ∧
  OrderedQMap.at_ (OrderedQMap.keyOrder key m) m = Some (OrderedQMap.value key m) ∧
  OrderedQMap.value_at (OrderedQMap.keyOrder key m) m = OrderedQMap.value key m.
Proof.
  intros Hc. apply QList_contains_true in Hc.
  destruct (QList_indexOf_elem key _ Hc) as (n & Hi & Hn & _).
  unfold OrderedQMap.keyOrder, OrderedQMap.keys. rewrite Hi.
  assert (QList.in_range (Z.of_nat n) (OrderedQMap.order m)) as Hr.
  { unfold QList.in_range. apply lookup_lt_Some in Hn. lia. }
  unfold OrderedQMap.key, OrderedQMap.at_, OrderedQMap.value_at, QList.value, QList.at_.
  rewrite !decide_True by done. rewrite Nat2Z.id, Hn. simpl.
  unfold QList.in_range in Hr. split_and!; [lia | lia | done..].
Qed.

(** X3: On a duplicate-free order, the key at a valid index is found again at
    that index. *)
Theorem key_then_keyOrder_round_trip m index :
  OrderedQMap.I2 m →
  0 ≤ index < Z.of_nat (length (OrderedQMap.keys m)) →
  OrderedQMap.contains (OrderedQMap.key index m) m = true ∧
  OrderedQMap.keyOrder (OrderedQMap.key index m) m = index.
Proof.
  intros Hdup Hr.
  destruct (QList_at_Some index (OrderedQMap.order m) Hr) as (x & _ & Hx).
  unfold OrderedQMap.key, QList.value. rewrite decide_True by done.
  rewrite Hx. simpl. split.
  - apply QList_contains_true. by eapply list_elem_of_lookup_2.
  - unfold OrderedQMap.keyOrder, OrderedQMap.keys.
    rewrite (QList_indexOf_lookup _ _ _ Hdup Hx). lia.
Qed.

(** X4: [values()] has one entry per ordered key, and entry [index] is what
    [at(index)] and [value(index)] return. *)
Theorem values_lists_at m index :
  0 ≤ index < Z.of_nat (length (OrderedQMap.keys m)) →
  length (OrderedQMap.values m) = length (OrderedQMap.keys m) ∧
  OrderedQMap.at_ index m = OrderedQMap.values m !! Z.to_nat index ∧
  OrderedQMap.at_ index m = Some (OrderedQMap.value_at index m).
Proof.
  intros Hr.
  destruct (QList_at_Some index (OrderedQMap.order m) Hr) as (x & _ & Hx).
  unfold OrderedQMap.values, OrderedQMap.at_, OrderedQMap.value_at, QList.at_, QList.value.
  rewrite !decide_True by done.
  rewrite length_fmap, list_lookup_fmap. unfold OrderedQMap.keys. rewrite Hx.
  done.
Qed.
End ordered_qmap_positions.

Lemma keyOrder_then_key_round_trip_witness :
  OrderedQMap.contains "a"%string demo_map = true ∧
  OrderedQMap.key (OrderedQMap.keyOrder "a"%string demo_map) demo_map = "a"%string ∧
  OrderedQMap.at_ (OrderedQMap.keyOrder "a"%string demo_map) demo_map = Some 1.
Proof.
  split; [reflexivity|].
  destruct (keyOrder_then_key_round_trip demo_map "a"%string eq_refl)
    as (_ & Hkey & Hat & _).
  split; [exact Hkey | exact Hat].
Defined.

Lemma key_then_keyOrder_round_trip_witness :
  OrderedQMap.I2 demo_map ∧
  0 ≤ 2 < Z.of_nat (length (OrderedQMap.keys demo_map)) ∧
  OrderedQMap.keyOrder (OrderedQMap.key 2 demo_map) demo_map = 2.
Proof.
  assert (OrderedQMap.I2 demo_map) as Hdup.
  { apply (bool_decide_unpack _). vm_compute. exact I. }
  assert (0 ≤ 2 < Z.of_nat (length (OrderedQMap.keys demo_map))) as Hr.
  { simpl. lia. }
  split; [exact Hdup|]. split; [exact Hr|].
  exact (proj2 (key_then_keyOrder_round_trip demo_map 2 Hdup Hr)).
Defined.

Lemma values_lists_at_witness :
  0 ≤ 1 < Z.of_nat (length (OrderedQMap.keys demo_map)) ∧
  OrderedQMap.at_ 1 demo_map = OrderedQMap.values demo_map !! Z.to_nat 1.
Proof.
  assert (0 ≤ 1 < Z.of_nat (length (OrderedQMap.keys demo_map))) as Hr.
  { simpl. lia. }
  split; [exact Hr|].
  exact (proj1 (proj2 (values_lists_at demo_map 1 Hr))).
Defined.

(** * Single mutators of the unique-key container, in full *)
Section ordered_qmap_mutators.
Context {K T : Type} `{Countable K} `{DefaultCtor K} `{DefaultCtor T}.
Implicit Types (m : OrderedQMap.t K T) (k key : K) (v : T).

Lemma QList_indexOf_snoc_new (x : K) (l : list K) :
  x ∉ l → QList.indexOf x (l ++ [x]) = Z.of_nat (length l).
Proof.
  intros Hx. unfold QList.indexOf.
  assert (∀ i, QList.indexOf_from x (l ++ [x]) i = i + Z.of_nat (length l)) as Hgen;
    [|by rewrite Hgen].
  induction l as [|y l IH]; intros i; simpl.
  - rewrite decide_True by done. lia.
  - apply not_elem_of_cons in Hx as [Hne Hl].
    rewrite decide_False by congruence. rewrite (IH Hl). lia.
Qed.

Lemma QList_indexOf_snoc_other (x y : K) (l : list K) :
  x ≠ y → QList.indexOf x (l ++ [y]) = QList.indexOf x l.
Proof.
  intros Hne. unfold QList.indexOf. generalize 0 as i.
  induction l as [|z l IH]; intros i; simpl.
  - by rewrite decide_False by congruence.
  - case_decide; [done | apply IH].
Qed.

Lemma not_contains_no_binding m key :
  OrderedQMap.I1 m → OrderedQMap.contains key m = false →
  OrderedQMap.store m !! key = None.
Proof.
  intros Hset Hc. rewrite I1_pointwise in Hset.
  apply QList_contains_false in Hc. apply eq_None_not_Some. by rewrite <- Hset.
Qed.

(** X5: [insert] of a key the map does not contain: the key goes to the end of
    the order, at index [size()]; the size grows by one; no other key's
    value or position changes. *)
Theorem insert_new_key_goes_last m key v :
  OrderedQMap.Inv m → OrderedQMap.contains key m = false →
  OrderedQMap.keys (OrderedQMap.insert key v m) = OrderedQMap.keys m ++ [key] ∧
  OrderedQMap.keyOrder key (OrderedQMap.insert key v m) = OrderedQMap.size m ∧
  OrderedQMap.size (OrderedQMap.insert key v m) = OrderedQMap.size m + 1 ∧
  OrderedQMap.value key (OrderedQMap.insert key v m) = v ∧
  ∀ k, k ≠ key →
    OrderedQMap.value k (OrderedQMap.insert key v m) = OrderedQMap.value k m ∧
    OrderedQMap.keyOrder k (OrderedQMap.insert key v m) = OrderedQMap.keyOrder k m.
Proof.
  intros HI Hc. pose proof (Inv_I3 m HI) as Hlen. destruct HI as [Hset Hdup].
  pose proof (not_contains_no_binding m key Hset Hc) as Hnone.
  unfold OrderedQMap.I3 in Hlen.
  unfold OrderedQMap.keys, OrderedQMap.keyOrder, OrderedQMap.size, OrderedQMap.value,
    OrderedQMap.value_or, OrderedQMap.insert, OrderedQMap.contains in *.
  simpl. rewrite Hc. simpl. unfold QList.append, QMap.insert, QMap.value, QMap.size in *.
  apply QList_contains_false in Hc.
  split_and!.
  - done.
  - rewrite QList_indexOf_snoc_new by done. exact Hlen.
  - rewrite map_size_insert_None by done. lia.
  - by rewrite lookup_insert_eq.
  - intros k Hk. split.
    + by rewrite lookup_insert_ne.
    + by apply QList_indexOf_snoc_other.
Qed.

(** X6: [prepend] of a key the map does not contain: the key becomes index 0
    and every key that was there moves up by one. *)
Theorem prepend_new_key_goes_first m key v :
  OrderedQMap.contains key m = false →
  OrderedQMap.keys (OrderedQMap.prepend key v m) = key :: OrderedQMap.keys m ∧
  OrderedQMap.keyOrder key (OrderedQMap.prepend key v m) = 0 ∧
  OrderedQMap.value key (OrderedQMap.prepend key v m) = v ∧
  ∀ k, OrderedQMap.contains k m = true →
    OrderedQMap.keyOrder k (OrderedQMap.prepend key v m) = OrderedQMap.keyOrder k m + 1 ∧
    OrderedQMap.value k (OrderedQMap.prepend key v m) = OrderedQMap.value k m.
Proof.
  intros Hc.
  unfold OrderedQMap.keys, OrderedQMap.keyOrder, OrderedQMap.value,
    OrderedQMap.value_or, OrderedQMap.prepend, OrderedQMap.contains in *.
  simpl. rewrite Hc. simpl. unfold QList.prepend, QMap.insert, QMap.value.
  split_and!.
  - done.
  - unfold QList.indexOf. simpl. by rewrite decide_True.
  - by rewrite lookup_insert_eq.
  - intros k Hk.
    assert (k ≠ key) as Hne by (intros ->; congruence).
    apply QList_contains_true in Hk. split.
    + unfold QList.indexOf. simpl. rewrite decide_False by congruence.
      rewrite (QList_indexOf_from_shift k _ (0 + 1) Hk).
      unfold OrderedQMap.keys. lia.
    + by rewrite lookup_insert_ne.
Qed.

(** X7: [prepend] of a contained key only overwrites its value. *)
Theorem prepend_existing_keeps_position m key v :
  OrderedQMap.contains key m = true →
  OrderedQMap.keys (OrderedQMap.prepend key v m) = OrderedQMap.keys m ∧
  OrderedQMap.value key (OrderedQMap.prepend key v m) = v ∧
  ∀ k, k ≠ key →
    OrderedQMap.value k (OrderedQMap.prepend key v m) = OrderedQMap.value k m.
Proof.
  intros Hc.
  unfold OrderedQMap.keys, OrderedQMap.value, OrderedQMap.value_or,
    OrderedQMap.prepend, OrderedQMap.contains in *.
  simpl. rewrite Hc. simpl. unfold QMap.insert, QMap.value.
  split_and!; [done | by rewrite lookup_insert_eq |].
  intros k Hk. by rewrite lookup_insert_ne.
Qed.

(** X8: [replaceAt] with a valid index on a consistent map: it returns the key
    at that index, binds it to the new value, and changes neither the
    order, nor the size, nor any other key's value. *)
Theorem replaceAt_valid_index m index v :
  OrderedQMap.Inv m → 0 ≤ index < OrderedQMap.size m →
  ∃ key m',
    OrderedQMap.replaceAt index v m = Some (key, m') ∧
    OrderedQMap.keys m !! Z.to_nat index = Some key ∧
    OrderedQMap.keys m' = OrderedQMap.keys m ∧
    OrderedQMap.size m' = OrderedQMap.size m ∧
    OrderedQMap.at_ index m' = Some v ∧
    OrderedQMap.value key m' = v ∧
    ∀ k, k ≠ key → OrderedQMap.value k m' = OrderedQMap.value k m.
Proof.
  intros HI Hi. pose proof (valid_index_in_range m index HI Hi) as Hr.
  destruct (QList_at_Some index _ Hr) as (x & Hat & Hx).
  assert (x ∈ OrderedQMap.order m) as Hin by (by eapply list_elem_of_lookup_2).
  pose proof (Inv_I3 _ (Inv_overwrite m x v HI Hin)) as Hlen'.
  pose proof (Inv_I3 m HI) as Hlen.
  unfold OrderedQMap.replaceAt. rewrite Hat. simpl.
  eexists _, _. split; [done|].
  unfold OrderedQMap.I3, OrderedQMap.size, OrderedQMap.keys, OrderedQMap.at_,
    OrderedQMap.value, OrderedQMap.value_or, QMap.value, QMap.insert in *.
  simpl in *. rewrite Hat. simpl. rewrite lookup_insert_eq.
  split_and!; [done | done | lia | done | done |].
  intros k Hk. by rewrite lookup_insert_ne.
Qed.

Lemma remove_present_effect m key :
  OrderedQMap.Inv m → OrderedQMap.contains key m = true →
  OrderedQMap.size (OrderedQMap.remove key m).2 = OrderedQMap.size m - 1 ∧
  OrderedQMap.keys (OrderedQMap.remove key m).2 =
    filter (λ k, k ≠ key) (OrderedQMap.keys m) ∧
  ∀ k, k ≠ key →
    OrderedQMap.value k (OrderedQMap.remove key m).2 = OrderedQMap.value k m ∧
    OrderedQMap.contains k (OrderedQMap.remove key m).2 = OrderedQMap.contains k m.
Proof.
  intros HI Hc. apply QList_contains_true in Hc.
  pose proof (Inv_I3 _ (Inv_remove m key HI Hc)) as Hlen'.
  pose proof (Inv_I3 m HI) as Hlen.
  destruct (remove_present m key (proj2 HI) Hc) as (n & Hi & Hn & Hord & Hnot).
  assert (OrderedQMap.keys (OrderedQMap.remove key m).2 =
          filter (λ k, k ≠ key) (OrderedQMap.keys m)) as Hkeys.
  { unfold OrderedQMap.keys. rewrite Hord. apply delete_filter_ne; [apply HI | done]. }
  unfold OrderedQMap.I3 in *. split_and!.
  - rewrite <- Hlen', <- Hlen, Hord, length_delete by eauto.
    apply lookup_lt_Some in Hn. lia.
  - done.
  - intros k Hk. split.
    + unfold OrderedQMap.value, OrderedQMap.value_or, QMap.value. simpl.
      by rewrite lookup_delete_ne.
    + unfold OrderedQMap.contains. fold (OrderedQMap.keys (OrderedQMap.remove key m).2).
      rewrite Hkeys. unfold OrderedQMap.keys.
      destruct (QList.contains k (OrderedQMap.order m)) eqn:Hk'.
      * apply QList_contains_true. apply QList_contains_true in Hk'.
        apply list_elem_of_filter. done.
      * apply QList_contains_false. apply QList_contains_false in Hk'.
        rewrite list_elem_of_filter. by intros [_ ?].
Qed.

(** X9: [remove] of a contained key on a consistent map: the size drops by
    exactly one, the other keys keep their relative order, and no other
    key's value or membership changes. *)
Theorem remove_present_shrinks_by_one m key :
  OrderedQMap.Inv m → OrderedQMap.contains key m = true →
  OrderedQMap.size (OrderedQMap.remove key m).2 = OrderedQMap.size m - 1 ∧
  OrderedQMap.keys (OrderedQMap.remove key m).2 =
    filter (λ k, k ≠ key) (OrderedQMap.keys m) ∧
  ∀ k, k ≠ key →
    OrderedQMap.value k (OrderedQMap.remove key m).2 = OrderedQMap.value k m ∧
    OrderedQMap.contains k (OrderedQMap.remove key m).2 = OrderedQMap.contains k m.
Proof. apply remove_present_effect. Qed.
End ordered_qmap_mutators.

Section ordered_qmap_removals.
Context {K T : Type} `{Countable K} `{DefaultCtor K} `{DefaultCtor T}.
Implicit Types (m : OrderedQMap.t K T) (k key : K) (v : T).

(** X10: [removeAt] with a valid index on a consistent map returns the key at
    that index and does what [remove] of that key does, which in turn
    reports the same index. *)
Theorem removeAt_valid_index_is_remove_of_key m index :
  OrderedQMap.Inv m → 0 ≤ index < OrderedQMap.size m →
  OrderedQMap.keys m !! Z.to_nat index = Some (OrderedQMap.removeAt index m).1 ∧
  OrderedQMap.remove (OrderedQMap.removeAt index m).1 m =
    (index, (OrderedQMap.removeAt index m).2) ∧
  OrderedQMap.keys (OrderedQMap.removeAt index m).2 =
    delete (Z.to_nat index) (OrderedQMap.keys m) ∧
  OrderedQMap.size (OrderedQMap.removeAt index m).2 = OrderedQMap.size m - 1.
Proof.
  intros HI Hi. pose proof (valid_index_in_range m index HI Hi) as Hr.
  destruct (QList_at_Some index _ Hr) as (x & _ & Hx).
  assert (OrderedQMap.removeAt index m =
          (x, OrderedQMap.mk (delete x (OrderedQMap.store m))
                (delete (Z.to_nat index) (OrderedQMap.order m)))) as Hrm.
  { unfold OrderedQMap.removeAt, OrderedQMap.key, QList.value, QList.removeAt.
    rewrite !decide_True by done. by rewrite Hx. }
  assert (OrderedQMap.remove x m = (index, (OrderedQMap.removeAt index m).2)) as Hrem.
  { rewrite Hrm. unfold OrderedQMap.remove. simpl.
    rewrite (QList_indexOf_lookup _ _ _ (proj2 HI) Hx).
    unfold QList.in_range in Hr. rewrite Z2Nat.id by lia.
    unfold QList.removeAt. by rewrite decide_True by done. }
  assert (OrderedQMap.contains x m = true) as Hc.
  { apply QList_contains_true. by eapply list_elem_of_lookup_2. }
  destruct (remove_present_effect m x HI Hc) as (Hsize & _).
  rewrite Hrem in Hsize. rewrite Hrm in *. simpl in *.
  split_and!; done.
Qed.

(** X11: [removeAt] with an index out of range: the order sequence is left
    alone, but the default-constructed key loses its binding in the store.
    On a map that contains that key, store and order then disagree. *)
Theorem removeAt_invalid_index_unbinds_default_key m index :
  OrderedQMap.I1 m →
  OrderedQMap.contains default_ctor m = true →
  ¬ (0 ≤ index < Z.of_nat (length (OrderedQMap.keys m))) →
  (OrderedQMap.removeAt index m).1 = default_ctor ∧
  OrderedQMap.keys (OrderedQMap.removeAt index m).2 = OrderedQMap.keys m ∧
  OrderedQMap.store (OrderedQMap.removeAt index m).2 =
    delete default_ctor (OrderedQMap.store m) ∧
  ¬ OrderedQMap.I1 (OrderedQMap.removeAt index m).2.
Proof.
  intros Hset Hc Hr.
  assert (OrderedQMap.removeAt index m =
          (default_ctor, OrderedQMap.mk (delete default_ctor (OrderedQMap.store m))
                           (OrderedQMap.order m))) as Hrm.
  { unfold OrderedQMap.removeAt, OrderedQMap.key, QList.value, QList.removeAt.
    by rewrite !decide_False by done. }
  rewrite Hrm. simpl. split_and!; [done..|].
  rewrite I1_pointwise. simpl. intros Hall.
  apply QList_contains_true in Hc. apply Hall in Hc as [v Hv].
  by rewrite lookup_delete_eq in Hv.
Qed.

(** X12: [removeLast] on a consistent, non-empty map removes the final entry of
    the order sequence, returns its key (the one [last()] reports), and
    unbinds it. *)
Theorem removeLast_drops_final_entry m :
  OrderedQMap.Inv m → OrderedQMap.isEmpty m = false →
  ∃ key m',
    OrderedQMap.removeLast m = Some (key, m') ∧
    OrderedQMap.last m = (key, OrderedQMap.value key m) ∧
    OrderedQMap.keys m = OrderedQMap.keys m' ++ [key] ∧
    OrderedQMap.store m' = delete key (OrderedQMap.store m) ∧
    OrderedQMap.size m' = OrderedQMap.size m - 1.
Proof.
  intros HI Hne. destruct (nonempty_order m HI Hne) as [x Hx].
  pose proof (QList_last_elem _ _ Hx) as Hin.
  assert (OrderedQMap.contains x m = true) as Hc by (by apply QList_contains_true).
  destruct (remove_present_effect m x HI Hc) as (Hsize & Hkeys & _).
  exists x, (OrderedQMap.remove x m).2.
  split; [unfold OrderedQMap.removeLast; by rewrite Hx|].
  destruct (QList_last_snoc_inv _ _ Hx) as [l' Hl'].
  split_and!.
  - unfold OrderedQMap.last. rewrite Hx, Hl'. by destruct l'.
  - rewrite Hkeys. unfold OrderedQMap.keys. rewrite Hl'.
    destruct HI as [_ Hdup]. unfold OrderedQMap.I2 in Hdup. rewrite Hl' in Hdup.
    apply NoDup_app in Hdup as (_ & Hdis & _).
    rewrite filter_app, filter_cons_False, filter_nil, app_nil_r
      by (intros Hn; by apply Hn).
    rewrite filter_ne_notin; [done|].
    intros Hx'. apply (Hdis x Hx'). by left.
  - done.
  - done.
Qed.

(** X13: Non-const [operator[]] on a map whose store and order agree: for a
    contained key it changes nothing; for any other key it does exactly
    what [insert(key, T())] does. *)
Theorem subscript_inserts_default_only_when_missing m key :
  OrderedQMap.I1 m →
  (OrderedQMap.contains key m = true → OrderedQMap.subscript key m = m) ∧
  (OrderedQMap.contains key m = false →
     OrderedQMap.subscript key m = OrderedQMap.insert key default_ctor m).
Proof.
  intros Hset. split; intros Hc.
  - rewrite I1_pointwise in Hset. unfold OrderedQMap.subscript, QMap.subscript.
    unfold OrderedQMap.contains in Hc. rewrite Hc. simpl.
    apply QList_contains_true, Hset in Hc as [v Hv]. rewrite Hv. by destruct m.
  - pose proof (not_contains_no_binding m key Hset Hc) as Hnone.
    unfold OrderedQMap.subscript, OrderedQMap.insert, QMap.subscript.
    by rewrite Hnone.
Qed.
End ordered_qmap_removals.

(** * Fluent construction and listings *)
Section ordered_qmap_fluent.
Context {K T : Type} `{Countable K} `{DefaultCtor K} `{DefaultCtor T}.
Implicit Types (m obj : OrderedQMap.t K T) (k key : K) (v : T) (ps : list (K * T)).

Lemma chain_store_other ps obj k :
  k ∉ ps.*1 →
  OrderedQMap.store (foldl (λ o p, OrderedQMap.shl_pair p o) obj ps) !! k =
  OrderedQMap.store obj !! k.
Proof.
  revert obj. induction ps as [|[k0 v0] ps IH]; intros obj Hk; [done|].
  simpl in Hk. apply not_elem_of_cons in Hk as [Hne Hk].
  cbn [foldl]. rewrite (IH _ Hk). simpl. unfold QMap.insert.
  by rewrite lookup_insert_ne.
Qed.

Lemma chain_distinct ps obj :
  NoDup ps.*1 → (∀ k, k ∈ ps.*1 → k ∉ OrderedQMap.order obj) →
  OrderedQMap.order (foldl (λ o p, OrderedQMap.shl_pair p o) obj ps) =
    OrderedQMap.order obj ++ ps.*1 ∧
  ∀ k v, (k, v) ∈ ps →
    OrderedQMap.store (foldl (λ o p, OrderedQMap.shl_pair p o) obj ps) !! k = Some v.
Proof.
  revert obj. induction ps as [|[k0 v0] ps IH]; intros obj Hnd Hfresh.
  - simpl. rewrite app_nil_r. split; [done|]. by intros k v ?%not_elem_of_nil.
  - simpl in Hnd. apply NoDup_cons in Hnd as [Hk0 Hnd].
    assert (QList.contains k0 (OrderedQMap.order obj) = false) as Hc.
    { apply QList_contains_false, Hfresh. by left. }
    cbn [foldl].
    destruct (IH (OrderedQMap.shl_pair (k0, v0) obj) Hnd) as [Hord Hst].
    { intros k Hk. simpl. rewrite Hc. simpl. unfold QList.append.
      intros [Hin|Heq]%elem_of_app.
      - apply (Hfresh k); [by right | done].
      - apply list_elem_of_singleton in Heq. by subst. }
    split.
    + rewrite Hord. simpl. rewrite Hc. simpl. unfold QList.append.
      by rewrite <- app_assoc.
    + intros k v [Heq|Hin]%elem_of_cons; [|by apply Hst].
      injection Heq as -> ->. rewrite chain_store_other by done.
      simpl. unfold QMap.insert. by rewrite lookup_insert_eq.
Qed.

(** X15: A chain of [operator<<(QPair)] on the empty map with pairwise distinct
    keys: [keys()] is the sequence of the keys, [values()] the sequence of
    the values, as written. *)
Theorem fluent_chain_keeps_written_order ps :
  NoDup ps.*1 →
  OrderedQMap.keys (foldl (λ o p, OrderedQMap.shl_pair p o) OrderedQMap.empty ps) = ps.*1 ∧
  OrderedQMap.values (foldl (λ o p, OrderedQMap.shl_pair p o) OrderedQMap.empty ps) = ps.*2 ∧
  ∀ k v, (k, v) ∈ ps →
    OrderedQMap.value k (foldl (λ o p, OrderedQMap.shl_pair p o) OrderedQMap.empty ps) = v.
Proof.
  intros Hnd.
  destruct (chain_distinct ps OrderedQMap.empty Hnd) as [Hord Hst].
  { intros k _. apply not_elem_of_nil. }
  simpl in Hord.
  assert (∀ k v, (k, v) ∈ ps →
            OrderedQMap.value k
              (foldl (λ o p, OrderedQMap.shl_pair p o) OrderedQMap.empty ps) = v) as Hval.
  { intros k v Hin. unfold OrderedQMap.value, OrderedQMap.value_or, QMap.value.
    by rewrite (Hst k v Hin). }
  split_and!; [done | | done].
  unfold OrderedQMap.values, OrderedQMap.keys. rewrite Hord.
  rewrite <- list_fmap_compose. apply list_fmap_ext.
  intros i [k v] Hi. simpl. apply Hval. by eapply list_elem_of_lookup_2.
Qed.

(** X16: [valueKeyList] pairs every ordered key with its value, position by
    position; the empty pair, when asked for, is one extra entry in front
    of them or behind them. *)
Theorem valueKeyList_follows_order m (i : nat) key :
  OrderedQMap.keys m !! i = Some key →
  (∀ first, OrderedQMap.valueKeyList false first m !! i =
              Some (OrderedQMap.value key m, key)) ∧
  OrderedQMap.valueKeyList true true m !! 0%nat = Some (default_ctor, default_ctor) ∧
  OrderedQMap.valueKeyList true true m !! S i = Some (OrderedQMap.value key m, key) ∧
  OrderedQMap.valueKeyList true false m !! i = Some (OrderedQMap.value key m, key) ∧
  OrderedQMap.valueKeyList true false m !! length (OrderedQMap.keys m) =
    Some (default_ctor, default_ctor) ∧
  length (OrderedQMap.valueKeyList true false m) = S (length (OrderedQMap.keys m)).
Proof.
  intros Hi.
  assert (((λ k, (OrderedQMap.value k m, k)) <$> OrderedQMap.keys m) !! i =
          Some (OrderedQMap.value key m, key)) as Hres.
  { by rewrite list_lookup_fmap, Hi. }
  unfold OrderedQMap.valueKeyList. split_and!.
  - done.
  - done.
  - done.
  - rewrite lookup_app_l; [done|]. by eapply lookup_lt_Some.
  - rewrite lookup_app_r by (rewrite length_fmap; lia).
    by rewrite length_fmap, Nat.sub_diag.
  - rewrite length_app, length_fmap. simpl. lia.
Qed.
End ordered_qmap_fluent.

(** * More about the stream operators *)
Section ordered_qmap_stream_more.
Context {K T : Type} `{Countable K} `{DefaultCtor K} `{DefaultCtor T}.
Implicit Types (m obj : OrderedQMap.t K T) (k key : K).

(** X17: When the store binds exactly the ordered keys, [operator<<] appends to
    the stream the key sequence and then the store itself. *)
Theorem stream_out_writes_keys_then_store m out :
  OrderedQMap.I1 m →
  OrderedQMap.stream_out out m =
  out ++ [QDataStream.KeyList (OrderedQMap.keys m);
          QDataStream.MapPayload (OrderedQMap.toQMap m)].
Proof.
  intros Hset. rewrite I1_pointwise in Hset.
  assert (foldl (λ acc j, QMap.insert j (OrderedQMap.value j m) acc) ∅
            (OrderedQMap.keys m) = OrderedQMap.toQMap m) as Htmp.
  { apply map_eq. intros k. rewrite payload_lookup. unfold OrderedQMap.toQMap.
    case_decide as Hk.
    - apply Hset in Hk as [v Hv].
      unfold OrderedQMap.value, OrderedQMap.value_or, QMap.value. by rewrite Hv.
    - rewrite lookup_empty. symmetry. apply eq_None_not_Some. by rewrite <- Hset. }
  unfold OrderedQMap.stream_out, QDataStream.write_QMap, QDataStream.write_QList.
  rewrite Htmp. by rewrite <- app_assoc.
Qed.

(** X18: Two consistent maps written one after the other to a fresh stream are
    read back, into empty maps, in the order they were written. *)
Theorem stream_two_maps_in_sequence m1 m2 :
  OrderedQMap.Inv m1 → OrderedQMap.Inv m2 →
  ∃ rest,
    OrderedQMap.stream_in
      (OrderedQMap.stream_out (OrderedQMap.stream_out [] m1) m2) OrderedQMap.empty =
      (rest, m1) ∧
    OrderedQMap.stream_in rest OrderedQMap.empty = ([], m2).
Proof.
  intros HI1 HI2. exists (OrderedQMap.stream_out [] m2). split.
  - pose proof (stream_round_trip m1 HI1) as Hrt.
    rewrite stream_out_chunks, stream_in_chunks in Hrt.
    injection Hrt as Hrt.
    unfold OrderedQMap.stream_out at 1.
    unfold QDataStream.write_QMap, QDataStream.write_QList.
    rewrite stream_out_chunks. simpl app. rewrite stream_in_chunks.
    by rewrite Hrt.
  - by apply stream_round_trip.
Qed.

End ordered_qmap_stream_more.

(** * Order entries against stored values in the multi-map *)
Section ordered_qmultimap_balance.
Context {K T : Type} `{Countable K} `{DefaultCtor T}.
Implicit Types (m : OrderedQMultiMap.t K T) (k key : K) (v : T) (l : list K).

Lemma occ_snoc key k l :
  length (filter (λ j, j = key) (l ++ [k])) =
  (length (filter (λ j, j = key) l) + if decide (k = key) then 1 else 0)%nat.
Proof.
  rewrite filter_app, length_app. f_equal.
  case_decide; [by rewrite filter_cons_True | by rewrite filter_cons_False].
Qed.

Lemma occ_cons key k l :
  length (filter (λ j, j = key) (k :: l)) =
  ((if decide (k = key) then 1 else 0) + length (filter (λ j, j = key) l))%nat.
Proof.
  case_decide; [by rewrite filter_cons_True | by rewrite filter_cons_False].
Qed.

Lemma occ_zero_iff key l :
  length (filter (λ j, j = key) l) = 0%nat ↔ key ∉ l.
Proof.
  induction l as [|k l IH]; [by split; [intros _; apply not_elem_of_nil|]|].
  rewrite occ_cons, not_elem_of_cons. case_decide; subst.
  - split; [simpl; lia | by intros [? _]].
  - simpl. rewrite IH. split; [by split | by intros [_ ?]].
Qed.

Lemma occ_removeAll key k l :
  length (filter (λ j, j = key) (QList.removeAll k l)) =
  if decide (k = key) then 0%nat else length (filter (λ j, j = key) l).
Proof.
  induction l as [|j l IH]; simpl; [by case_decide|].
  destruct (decide (j = k)) as [->|Hjk].
  - rewrite IH, occ_cons. by case_decide.
  - rewrite !occ_cons, IH. repeat case_decide; subst; done.
Qed.

Lemma occ_NoDup key l :
  NoDup l → (length (filter (λ j, j = key) l) ≤ 1)%nat.
Proof.
  induction 1 as [|k l Hk Hnd IH]; [simpl; lia|].
  rewrite occ_cons. case_decide; subst; [|simpl; lia].
  apply occ_zero_iff in Hk. simpl. lia.
Qed.

(** Under the balance, [contains] tells whether the key has a value. *)
Lemma balanced_contains m key :
  OrderedQMultiMap.balanced m →
  OrderedQMultiMap.contains key m = false ↔ OrderedQMultiMap.values key m = [].
Proof.
  intros Hb. specialize (Hb key). unfold OrderedQMultiMap.occurrences in Hb.
  unfold OrderedQMultiMap.contains. rewrite QList_contains_false, <- occ_zero_iff, Hb.
  by destruct (OrderedQMultiMap.values key m).
Qed.

Lemma balanced_empty : OrderedQMultiMap.balanced (@OrderedQMultiMap.empty K T _ _).
Proof. intros key. done. Qed.

Lemma balanced_insert m k v :
  OrderedQMultiMap.balanced m → OrderedQMultiMap.balanced (OrderedQMultiMap.insert k v m).
Proof.
  intros Hb key. specialize (Hb key).
  unfold OrderedQMultiMap.occurrences, OrderedQMultiMap.values, OrderedQMultiMap.insert,
    QList.append in *. simpl.
  rewrite occ_snoc, QMultiMap_values_insert.
  case_decide; subst; simpl; lia.
Qed.

Lemma balanced_remove m k :
  OrderedQMultiMap.balanced m → OrderedQMultiMap.balanced (OrderedQMultiMap.remove k m).2.
Proof.
  intros Hb key. specialize (Hb key).
  unfold OrderedQMultiMap.occurrences, OrderedQMultiMap.values, OrderedQMultiMap.remove in *.
  simpl. rewrite occ_removeAll.
  pose proof (QMultiMap_values_remove k key (OrderedQMultiMap.store m)) as Hr.
  simpl in Hr. rewrite Hr. by case_decide.
Qed.

Lemma balanced_replace m k v :
  OrderedQMultiMap.balanced m → OrderedQMultiMap.balanced (OrderedQMultiMap.replace k v m).
Proof.
  intros Hb key. pose proof (balanced_contains m k Hb) as Hck.
  specialize (Hb key).
  unfold OrderedQMultiMap.occurrences, OrderedQMultiMap.values, OrderedQMultiMap.replace,
    OrderedQMultiMap.contains, QList.append in *. simpl.
  rewrite QMultiMap_values_replace.
  destruct (QList.contains k (OrderedQMultiMap.order m)) eqn:Hc; simpl.
  - case_decide; subst; [|done].
    destruct (QMultiMap.values key (OrderedQMultiMap.store m)) as [|w ws] eqn:Hv.
    + destruct Hck as [_ Hck]. by specialize (Hck eq_refl).
    + simpl in *. lia.
  - rewrite occ_snoc. case_decide; subst; [|lia].
    destruct Hck as [Hck _]. rewrite (Hck eq_refl) in *. simpl in *. lia.
Qed.

Lemma balanced_subscript m k :
  OrderedQMultiMap.balanced m → OrderedQMultiMap.balanced (OrderedQMultiMap.subscript k m).
Proof.
  intros Hb key. pose proof (balanced_contains m k Hb) as Hck.
  specialize (Hb key).
  unfold OrderedQMultiMap.occurrences, OrderedQMultiMap.values, OrderedQMultiMap.subscript,
    OrderedQMultiMap.contains, QMultiMap.subscript, QList.append in *. simpl.
  destruct (QList.contains k (OrderedQMultiMap.order m)) eqn:Hc; simpl.
  - destruct (QMultiMap.values k (OrderedQMultiMap.store m)) as [|w ws] eqn:Hv; [|done].
    destruct Hck as [_ Hck]. by specialize (Hck eq_refl).
  - destruct Hck as [Hck _]. rewrite (Hck eq_refl).
    rewrite occ_snoc. unfold QMultiMap.values at 1. rewrite lookup_insert.
    case_decide; subst; simpl.
    + rewrite (Hck eq_refl) in Hb. simpl in Hb. lia.
    + unfold QMultiMap.values in Hb. lia.
Qed.

Lemma balanced_prepend_new m k v :
  OrderedQMultiMap.balanced m → OrderedQMultiMap.contains k m = false →
  OrderedQMultiMap.balanced (OrderedQMultiMap.prepend k v m).
Proof.
  intros Hb Hc key. specialize (Hb key).
  unfold OrderedQMultiMap.occurrences, OrderedQMultiMap.values, OrderedQMultiMap.prepend,
    OrderedQMultiMap.contains, QList.prepend in *. simpl. rewrite Hc. simpl.
  rewrite occ_cons, QMultiMap_values_insert.
  case_decide; subst; simpl; lia.
Qed.

Lemma balanced_exec (c : OrderedQMultiMap.call_t K T) m :
  OrderedQMultiMap.balanced m →
  OrderedQMultiMap.no_prepend_of_present c m = true →
  OrderedQMultiMap.balanced (OrderedQMultiMap.exec c m).
Proof.
  intros Hb Hok. destruct c as [k v|k v|k v|k v|k| |k v|[k v]|k]; simpl in *.
  - by apply balanced_insert.
  - by apply balanced_insert.
  - apply balanced_prepend_new; [done|]. by apply negb_true_iff.
  - by apply balanced_replace.
  - by apply balanced_remove.
  - apply balanced_empty.
  - by apply (balanced_insert m k v).
  - by apply (balanced_insert m k v).
  - by apply balanced_subscript.
Qed.

(** X19: From the empty multi-map, every sequence of [insert], [append],
    [replace], [remove], [clear], [operator()], [operator<<] and
    [operator[]] calls, and of [prepend] calls with a key not yet ordered,
    leaves each key with as many order entries as stored values. *)
Theorem multi_calls_keep_one_entry_per_value (cs : list (OrderedQMultiMap.call_t K T)) :
  OrderedQMultiMap.no_prepend_of_present_seq cs OrderedQMultiMap.empty = true →
  ∀ key,
    OrderedQMultiMap.occurrences key (OrderedQMultiMap.run cs OrderedQMultiMap.empty) =
    length (OrderedQMultiMap.values key (OrderedQMultiMap.run cs OrderedQMultiMap.empty)).
Proof.
  intros Hok.
  assert (∀ m, OrderedQMultiMap.balanced m →
               OrderedQMultiMap.no_prepend_of_present_seq cs m = true →
               OrderedQMultiMap.balanced (OrderedQMultiMap.run cs m)) as Hgen.
  { clear Hok. induction cs as [|c cs IH]; intros m Hb Hok; [done|].
    simpl in Hok. apply andb_true_iff in Hok as [Hc Hcs].
    unfold OrderedQMultiMap.run. cbn [foldl].
    apply IH; [by apply balanced_exec | done]. }
  exact (Hgen _ balanced_empty Hok).
Qed.

(** X20: [prepend] of a key that is already ordered stores one more value for
    it without a new order entry: afterwards the key has fewer order
    entries than values. *)
Theorem multi_prepend_of_present_key_unbalances m key v :
  OrderedQMultiMap.balanced m → OrderedQMultiMap.contains key m = true →
  OrderedQMultiMap.keys (OrderedQMultiMap.prepend key v m) = OrderedQMultiMap.keys m ∧
  OrderedQMultiMap.values key (OrderedQMultiMap.prepend key v m) =
    v :: OrderedQMultiMap.values key m ∧
  (OrderedQMultiMap.occurrences key (OrderedQMultiMap.prepend key v m) <
   length (OrderedQMultiMap.values key (OrderedQMultiMap.prepend key v m)))%nat ∧
  ¬ OrderedQMultiMap.balanced (OrderedQMultiMap.prepend key v m).
Proof.
  intros Hb Hc. pose proof (Hb key) as Hk.
  assert (OrderedQMultiMap.keys (OrderedQMultiMap.prepend key v m) =
          OrderedQMultiMap.keys m) as Hkeys.
  { unfold OrderedQMultiMap.keys, OrderedQMultiMap.prepend, OrderedQMultiMap.contains in *.
    simpl. by rewrite Hc. }
  assert (OrderedQMultiMap.values key (OrderedQMultiMap.prepend key v m) =
          v :: OrderedQMultiMap.values key m) as Hval.
  { unfold OrderedQMultiMap.values, OrderedQMultiMap.prepend. simpl.
    by rewrite QMultiMap_values_insert, decide_True. }
  assert (OrderedQMultiMap.occurrences key (OrderedQMultiMap.prepend key v m) <
          length (OrderedQMultiMap.values key (OrderedQMultiMap.prepend key v m)))%nat as Hlt.
  { rewrite Hval. unfold OrderedQMultiMap.occurrences in *.
    fold (OrderedQMultiMap.keys (OrderedQMultiMap.prepend key v m)).
    rewrite Hkeys. unfold OrderedQMultiMap.keys. simpl. lia. }
  split_and!; [done..|].
  intros Hb'. specialize (Hb' key). lia.
Qed.
End ordered_qmultimap_balance.

(** * Size and stream round trip of the multi-map *)
Section ordered_qmultimap_size.
Context {K T : Type} `{Countable K} `{DefaultCtor T}.
Implicit Types (m : OrderedQMultiMap.t K T) (k key : K) (v : T) (l : list K).
Implicit Types (st : gmap K (list T)).

Lemma QMultiMap_size_insert_fresh st k (vs : list T) :
  st !! k = None →
  QMultiMap.size (<[k := vs]> st) = Z.of_nat (length vs) + QMultiMap.size st.
Proof.
  intros Hk. unfold QMultiMap.size.
  rewrite map_fold_insert_L; [done | intros; lia | done].
Qed.

Lemma QMultiMap_size_delete st k :
  QMultiMap.size (delete k st) =
  QMultiMap.size st - Z.of_nat (length (QMultiMap.values k st)).
Proof.
  unfold QMultiMap.values. destruct (st !! k) as [vs|] eqn:Hk; simpl.
  - unfold QMultiMap.size.
    rewrite (map_fold_delete_L _ _ k vs st); [lia | intros; lia | done].
  - rewrite delete_id by done. lia.
Qed.

Lemma QMultiMap_size_insert st k (vs : list T) :
  QMultiMap.size (<[k := vs]> st) =
  QMultiMap.size st - Z.of_nat (length (QMultiMap.values k st)) + Z.of_nat (length vs).
Proof.
  rewrite <- insert_delete_eq.
  rewrite QMultiMap_size_insert_fresh by apply lookup_delete_eq.
  rewrite QMultiMap_size_delete. lia.
Qed.

(** X21: [size()] of the multi-map counts stored values: [insert] adds one,
    [remove] takes off exactly the count it returns, and [replace] adds one
    only for a key that had no value. *)
Theorem multi_size_counts_values m key v :
  OrderedQMultiMap.size (OrderedQMultiMap.insert key v m) = OrderedQMultiMap.size m + 1 ∧
  OrderedQMultiMap.size (OrderedQMultiMap.remove key m).2 =
    OrderedQMultiMap.size m - (OrderedQMultiMap.remove key m).1 ∧
  OrderedQMultiMap.size (OrderedQMultiMap.replace key v m) =
    OrderedQMultiMap.size m + (if decide (OrderedQMultiMap.count key m = 0) then 1 else 0) ∧
  OrderedQMultiMap.size (OrderedQMultiMap.clear m) = 0.
Proof.
  unfold OrderedQMultiMap.size, OrderedQMultiMap.insert, OrderedQMultiMap.remove,
    OrderedQMultiMap.replace, OrderedQMultiMap.count, OrderedQMultiMap.clear,
    QMultiMap.insert, QMultiMap.replace, QMultiMap.remove, QMultiMap.count.
  simpl. rewrite !QMultiMap_size_insert, QMultiMap_size_delete.
  split_and!.
  - simpl. lia.
  - done.
  - destruct (QMultiMap.values key (OrderedQMultiMap.store m));
      cbn [length tail]; case_decide; lia.
  - done.
Qed.

Lemma length_removeAll_occ k l :
  length l = (length (filter (λ j, j = k) l) + length (QList.removeAll k l))%nat.
Proof.
  induction l as [|j l IH]; [done|]. simpl. rewrite occ_cons.
  case_decide; subst; simpl; lia.
Qed.

Lemma QMultiMap_size_balanced st :
  ∀ l, (∀ key, length (filter (λ j, j = key) l) = length (QMultiMap.values key st)) →
       QMultiMap.size st = Z.of_nat (length l).
Proof.
  induction st as [|i x st Hi IH] using map_ind; intros l Hb.
  - destruct l as [|j l]; [done|].
    specialize (Hb j). rewrite occ_cons, decide_True in Hb by done. done.
  - rewrite QMultiMap_size_insert_fresh by done.
    rewrite (IH (QList.removeAll i l)).
    + rewrite (length_removeAll_occ i l), (Hb i).
      unfold QMultiMap.values. rewrite lookup_insert_eq. simpl. lia.
    + intros key. rewrite occ_removeAll. case_decide; subst.
      * unfold QMultiMap.values. by rewrite Hi.
      * rewrite (Hb key). unfold QMultiMap.values. by rewrite lookup_insert_ne.
Qed.

(** X22: While every key has one order entry per stored value, [size()] is the
    length of [keys()]. *)
Theorem multi_size_is_order_length m :
  OrderedQMultiMap.balanced m →
  OrderedQMultiMap.size m = Z.of_nat (length (OrderedQMultiMap.keys m)).
Proof. intros Hb. by apply QMultiMap_size_balanced. Qed.
End ordered_qmultimap_size.

Section ordered_qmultimap_stream.
Context {K T : Type} `{Countable K} `{DefaultCtor T}.
Implicit Types (m obj : OrderedQMultiMap.t K T) (k key : K) (v : T) (ks : list K).

Lemma multi_payload_values (f : K → T) ks (acc : gmap K (list T)) key :
  QMultiMap.values key (foldl (λ tmp k, QMultiMap.insert k (f k) tmp) acc ks) =
  replicate (length (filter (λ j, j = key) ks)) (f key) ++ QMultiMap.values key acc.
Proof.
  revert acc. induction ks as [|k ks IH]; intros acc; [done|].
  cbn [foldl]. rewrite IH, QMultiMap_values_insert, occ_cons.
  case_decide; subst; [|done].
  cbn [Nat.add]. by rewrite replicate_S_end, <- app_assoc.
Qed.

Lemma multi_replay (f : K → T) ks obj :
  foldl (λ o k, OrderedQMultiMap.insert k (f k) o) obj ks =
  OrderedQMultiMap.mk
    (foldl (λ tmp k, QMultiMap.insert k (f k) tmp) (OrderedQMultiMap.store obj) ks)
    (OrderedQMultiMap.order obj ++ ks).
Proof.
  revert obj. induction ks as [|k ks IH]; intros obj.
  - simpl. rewrite app_nil_r. by destruct obj.
  - cbn [foldl]. rewrite IH. simpl. unfold QList.append.
    by rewrite <- app_assoc.
Qed.

Lemma multi_round_trip_effect m :
  OrderedQMultiMap.keys
    (OrderedQMultiMap.stream_in (OrderedQMultiMap.stream_out [] m)
       OrderedQMultiMap.empty).2 = OrderedQMultiMap.keys m ∧
  ∀ key,
    OrderedQMultiMap.values key
      (OrderedQMultiMap.stream_in (OrderedQMultiMap.stream_out [] m)
         OrderedQMultiMap.empty).2 =
    replicate (OrderedQMultiMap.occurrences key m) (OrderedQMultiMap.value key m).
Proof.
  unfold OrderedQMultiMap.stream_out, OrderedQMultiMap.stream_in. simpl.
  rewrite multi_replay. simpl. split; [done|].
  intros key. unfold OrderedQMultiMap.values. simpl.
  rewrite multi_payload_values. unfold QMultiMap.value at 1.
  rewrite multi_payload_values.
  unfold OrderedQMultiMap.occurrences, OrderedQMultiMap.keys.
  rewrite app_nil_r.
  by destruct (length (filter (λ j, j = key) (OrderedQMultiMap.order m))).
Qed.

(** X23: What the multi-map stream round trip really returns: the same
    [keys()], and for every key its most recent value, once per order
    entry of the key. *)
Theorem multi_stream_round_trip_shape m :
  OrderedQMultiMap.keys
    (OrderedQMultiMap.stream_in (OrderedQMultiMap.stream_out [] m)
       OrderedQMultiMap.empty).2 = OrderedQMultiMap.keys m ∧
  ∀ key,
    OrderedQMultiMap.values key
      (OrderedQMultiMap.stream_in (OrderedQMultiMap.stream_out [] m)
         OrderedQMultiMap.empty).2 =
    replicate (OrderedQMultiMap.occurrences key m) (OrderedQMultiMap.value key m).
Proof. apply multi_round_trip_effect. Qed.

(** X24: The multi-map stream round trip is faithful on a container that has no
    key twice in its order and one order entry per stored value. *)
Theorem multi_stream_round_trip_single_valued m :
  OrderedQMultiMap.balanced m → NoDup (OrderedQMultiMap.keys m) →
  OrderedQMultiMap.keys
    (OrderedQMultiMap.stream_in (OrderedQMultiMap.stream_out [] m)
       OrderedQMultiMap.empty).2 = OrderedQMultiMap.keys m ∧
  ∀ key,
    OrderedQMultiMap.values key
      (OrderedQMultiMap.stream_in (OrderedQMultiMap.stream_out [] m)
         OrderedQMultiMap.empty).2 = OrderedQMultiMap.values key m.
Proof.
  intros Hb Hnd. destruct (multi_round_trip_effect m) as [Hkeys Hvals].
  split; [done|]. intros key. rewrite Hvals.
  pose proof (Hb key) as Hk. pose proof (occ_NoDup key _ Hnd) as Hle.
  unfold OrderedQMultiMap.occurrences, OrderedQMultiMap.keys in *.
  unfold OrderedQMultiMap.value, OrderedQMultiMap.value_or, QMultiMap.value.
  fold (OrderedQMultiMap.values key m).
  rewrite Hk in *.
  destruct (OrderedQMultiMap.values key m) as [|w [|w' ws]]; simpl in *; [done..|lia].
Qed.
End ordered_qmultimap_stream.

(** * Lookups against membership *)
Section ordered_qmap_lookups.
Context {K T : Type} `{Countable K} `{DefaultCtor K} `{DefaultCtor T}.
Implicit Types (m : OrderedQMap.t K T) (k key : K) (v d : T).

(** X14: On a map whose store binds exactly the ordered keys: a key that
    [contains] denies counts 0 and [value(key, d)] is [d]; a key it
    confirms counts 1 and [value(key, d)] is the bound value whatever [d];
    and [isEmpty()] holds exactly when [keys()] is empty. *)
Theorem lookups_agree_with_contains m key :
  OrderedQMap.I1 m →
  (OrderedQMap.contains key m = false →
     OrderedQMap.count key m = 0 ∧ ∀ d, OrderedQMap.value_or key d m = d) ∧
  (OrderedQMap.contains key m = true →
     OrderedQMap.count key m = 1 ∧
     ∀ d, OrderedQMap.store m !! key = Some (OrderedQMap.value_or key d m)) ∧
  (OrderedQMap.isEmpty m = true ↔ OrderedQMap.keys m = []).
Proof.
  intros Hset. split_and!.
  - intros Hc. pose proof (not_contains_no_binding m key Hset Hc) as Hnone.
    unfold OrderedQMap.count, OrderedQMap.value_or, QMap.count, QMap.value.
    by rewrite Hnone.
  - intros Hc. rewrite I1_pointwise in Hset.
    apply QList_contains_true, Hset in Hc as [v Hv].
    unfold OrderedQMap.count, OrderedQMap.value_or, QMap.count, QMap.value.
    by rewrite Hv.
  - unfold OrderedQMap.isEmpty, QMap.isEmpty, OrderedQMap.keys.
    rewrite bool_decide_eq_true, <- dom_empty_iff_L.
    unfold OrderedQMap.I1 in Hset. rewrite <- Hset.
    destruct (OrderedQMap.order m) as [|k l]; [done|].
    split; [|done]. rewrite list_to_set_cons. intros Hem.
    assert (k ∈ (∅ : gset K)) as Hk by (rewrite <- Hem; set_solver).
    by apply not_elem_of_empty in Hk.
Qed.
End ordered_qmap_lookups.

Section ordered_qmultimap_last.
Context {K T : Type} `{Countable K} `{DefaultCtor K} `{DefaultCtor T}.
Implicit Types (m : OrderedQMultiMap.t K T) (k key : K) (v : T).

(** X25: Right after an [insert] on the multi-map, [last()] and [value(key)]
    are the inserted value, and [key] at the last index is the inserted
    key. *)
Theorem multi_last_is_latest_insert m key v :
  OrderedQMultiMap.last (OrderedQMultiMap.insert key v m) = v ∧
  OrderedQMultiMap.value key (OrderedQMultiMap.insert key v m) = v ∧
  OrderedQMultiMap.key (Z.of_nat (length (OrderedQMultiMap.keys m)))
    (OrderedQMultiMap.insert key v m) = key.
Proof.
  assert (OrderedQMultiMap.value key (OrderedQMultiMap.insert key v m) = v) as Hval.
  { unfold OrderedQMultiMap.value, OrderedQMultiMap.value_or, QMultiMap.value.
    simpl. by rewrite QMultiMap_values_insert, decide_True. }
  split_and!; [|done|].
  - unfold OrderedQMultiMap.last. simpl. unfold QList.append, QList.last.
    rewrite last_snoc. simpl.
    by destruct (OrderedQMultiMap.order m).
  - unfold OrderedQMultiMap.key, OrderedQMultiMap.keys, QList.value. simpl.
    unfold QList.append.
    rewrite decide_True by (unfold QList.in_range; rewrite length_app; simpl; lia).
    rewrite Nat2Z.id, lookup_app_r, Nat.sub_diag by lia. done.
Qed.
End ordered_qmultimap_last.

(** * The theorems above at concrete containers *)

Lemma demo_map_consistent : OrderedQMap.Inv demo_map.
Proof.
  split; [vm_compute; reflexivity|].
  apply (bool_decide_unpack _). vm_compute. exact I.
Defined.

Lemma demo_multi_balanced : OrderedQMultiMap.balanced demo_multi.
Proof. do 2 apply balanced_insert. apply balanced_empty. Defined.

Lemma demo_multi_flat_balanced : OrderedQMultiMap.balanced demo_multi_flat.
Proof. do 2 apply balanced_insert. apply balanced_empty. Defined.

Lemma insert_new_key_goes_last_witness :
  OrderedQMap.Inv demo_map ∧ OrderedQMap.contains "z"%string demo_map = false ∧
  OrderedQMap.keys (OrderedQMap.insert "z"%string 26 demo_map) =
    OrderedQMap.keys demo_map ++ ["z"%string] ∧
  OrderedQMap.keyOrder "z"%string (OrderedQMap.insert "z"%string 26 demo_map) =
    OrderedQMap.size demo_map.
Proof.
  split; [exact demo_map_consistent|]. split; [reflexivity|].
  destruct (insert_new_key_goes_last demo_map "z"%string 26 demo_map_consistent eq_refl)
    as (Hkeys & Hpos & _).
  split; [exact Hkeys | exact Hpos].
Defined.

Lemma prepend_new_key_goes_first_witness :
  OrderedQMap.contains "z"%string demo_map = false ∧
  OrderedQMap.keys (OrderedQMap.prepend "z"%string 26 demo_map) =
    "z"%string :: OrderedQMap.keys demo_map ∧
  OrderedQMap.keyOrder "a"%string (OrderedQMap.prepend "z"%string 26 demo_map) =
    OrderedQMap.keyOrder "a"%string demo_map + 1.
Proof.
  split; [reflexivity|].
  destruct (prepend_new_key_goes_first demo_map "z"%string 26 eq_refl)
    as (Hkeys & _ & _ & Hshift).
  split; [exact Hkeys | exact (proj1 (Hshift "a"%string eq_refl))].
Defined.

Lemma prepend_existing_keeps_position_witness :
  OrderedQMap.contains "a"%string demo_map = true ∧
  OrderedQMap.keys (OrderedQMap.prepend "a"%string 10 demo_map) = OrderedQMap.keys demo_map ∧
  OrderedQMap.value "a"%string (OrderedQMap.prepend "a"%string 10 demo_map) = 10.
Proof.
  split; [reflexivity|].
  destruct (prepend_existing_keeps_position demo_map "a"%string 10 eq_refl)
    as (Hkeys & Hval & _).
  split; [exact Hkeys | exact Hval].
Defined.

Lemma replaceAt_valid_index_witness :
  OrderedQMap.Inv demo_map ∧ 0 ≤ 0 < OrderedQMap.size demo_map ∧
  ∃ key m',
    OrderedQMap.replaceAt 0 20 demo_map = Some (key, m') ∧
    OrderedQMap.keys m' = OrderedQMap.keys demo_map ∧
    OrderedQMap.value key m' = 20.
Proof.
  assert (0 ≤ 0 < OrderedQMap.size demo_map) as Hr by (vm_compute; split; [discriminate | reflexivity]).
  split; [exact demo_map_consistent|]. split; [exact Hr|].
  destruct (replaceAt_valid_index demo_map 0 20 demo_map_consistent Hr)
    as (key & m' & Hrep & _ & Hkeys & _ & _ & Hval & _).
  exists key, m'. split; [exact Hrep|]. split; [exact Hkeys | exact Hval].
Defined.

Lemma remove_present_shrinks_by_one_witness :
  OrderedQMap.Inv demo_map ∧ OrderedQMap.contains "a"%string demo_map = true ∧
  OrderedQMap.size (OrderedQMap.remove "a"%string demo_map).2 =
    OrderedQMap.size demo_map - 1 ∧
  OrderedQMap.keys (OrderedQMap.remove "a"%string demo_map).2 =
    filter (λ k, k ≠ "a"%string) (OrderedQMap.keys demo_map).
Proof.
  split; [exact demo_map_consistent|]. split; [reflexivity|].
  destruct (remove_present_shrinks_by_one demo_map "a"%string demo_map_consistent eq_refl)
    as (Hsize & Hkeys & _).
  split; [exact Hsize | exact Hkeys].
Defined.

Lemma removeAt_valid_index_is_remove_of_key_witness :
  OrderedQMap.Inv demo_map ∧ 0 ≤ 1 < OrderedQMap.size demo_map ∧
  OrderedQMap.remove (OrderedQMap.removeAt 1 demo_map).1 demo_map =
    (1, (OrderedQMap.removeAt 1 demo_map).2).
Proof.
  assert (0 ≤ 1 < OrderedQMap.size demo_map) as Hr by (vm_compute; split; [discriminate | reflexivity]).
  split; [exact demo_map_consistent|]. split; [exact Hr|].
  exact (proj1 (proj2
    (removeAt_valid_index_is_remove_of_key demo_map 1 demo_map_consistent Hr))).
Defined.

Lemma removeAt_invalid_index_unbinds_default_key_witness :
  OrderedQMap.I1 empty_key_map ∧
  OrderedQMap.contains default_ctor empty_key_map = true ∧
  ¬ (0 ≤ 7 < Z.of_nat (length (OrderedQMap.keys empty_key_map))) ∧
  OrderedQMap.keys (OrderedQMap.removeAt 7 empty_key_map).2 =
    OrderedQMap.keys empty_key_map ∧
  ¬ OrderedQMap.I1 (OrderedQMap.removeAt 7 empty_key_map).2.
Proof.
  assert (OrderedQMap.I1 empty_key_map) as Hset by (vm_compute; reflexivity).
  assert (¬ (0 ≤ 7 < Z.of_nat (length (OrderedQMap.keys empty_key_map)))) as Hr.
  { simpl. lia. }
  assert (OrderedQMap.contains default_ctor empty_key_map = true) as Hc by reflexivity.
  split; [exact Hset|]. split; [exact Hc|]. split; [exact Hr|].
  destruct (removeAt_invalid_index_unbinds_default_key empty_key_map 7 Hset Hc Hr)
    as (_ & Hkeys & _ & Hbroken).
  split; [exact Hkeys | exact Hbroken].
Defined.

Lemma removeLast_drops_final_entry_witness :
  OrderedQMap.Inv demo_map ∧ OrderedQMap.isEmpty demo_map = false ∧
  ∃ key m',
    OrderedQMap.removeLast demo_map = Some (key, m') ∧
    OrderedQMap.keys demo_map = OrderedQMap.keys m' ++ [key].
Proof.
  split; [exact demo_map_consistent|]. split; [vm_compute; reflexivity|].
  destruct (removeLast_drops_final_entry demo_map demo_map_consistent)
    as (key & m' & Hrm & _ & Hkeys & _); [vm_compute; reflexivity|].
  exists key, m'. split; [exact Hrm | exact Hkeys].
Defined.

Lemma subscript_inserts_default_only_when_missing_witness :
  OrderedQMap.I1 demo_map ∧
  OrderedQMap.subscript "a"%string demo_map = demo_map ∧
  OrderedQMap.subscript "z"%string demo_map =
    OrderedQMap.insert "z"%string default_ctor demo_map.
Proof.
  split; [exact (proj1 demo_map_consistent)|].
  split.
  - exact (proj1 (subscript_inserts_default_only_when_missing demo_map "a"%string
                    (proj1 demo_map_consistent)) eq_refl).
  - exact (proj2 (subscript_inserts_default_only_when_missing demo_map "z"%string
                    (proj1 demo_map_consistent)) eq_refl).
Defined.

Lemma fluent_chain_keeps_written_order_witness :
  NoDup demo_pairs.*1 ∧
  OrderedQMap.keys (foldl (λ o p, OrderedQMap.shl_pair p o) OrderedQMap.empty demo_pairs) =
    ["b"; "a"; "c"]%string ∧
  OrderedQMap.values (foldl (λ o p, OrderedQMap.shl_pair p o) OrderedQMap.empty demo_pairs) =
    [2; 1; 3].
Proof.
  assert (NoDup demo_pairs.*1) as Hnd.
  { apply (bool_decide_unpack _). vm_compute. exact I. }
  split; [exact Hnd|].
  destruct (fluent_chain_keeps_written_order demo_pairs Hnd) as (Hkeys & Hvals & _).
  split; [exact Hkeys | exact Hvals].
Defined.

Lemma valueKeyList_follows_order_witness :
  OrderedQMap.keys demo_map !! 1%nat = Some "a"%string ∧
  OrderedQMap.valueKeyList true true demo_map !! 2%nat = Some (1, "a"%string) ∧
  OrderedQMap.valueKeyList true false demo_map !! 3%nat = Some (0, ""%string).
Proof.
  split; [reflexivity|].
  destruct (valueKeyList_follows_order demo_map 1 "a"%string eq_refl)
    as (_ & _ & Hfirst & _ & Hlast & _).
  split; [exact Hfirst | exact Hlast].
Defined.

Lemma stream_out_writes_keys_then_store_witness :
  OrderedQMap.I1 demo_map ∧
  OrderedQMap.stream_out [] demo_map =
    [QDataStream.KeyList ["b"; "a"; "c"]%string;
     QDataStream.MapPayload (OrderedQMap.toQMap demo_map)].
Proof.
  split; [exact (proj1 demo_map_consistent)|].
  exact (stream_out_writes_keys_then_store demo_map [] (proj1 demo_map_consistent)).
Defined.

Lemma stream_two_maps_in_sequence_witness :
  OrderedQMap.Inv demo_map ∧ OrderedQMap.Inv empty_key_map ∧
  ∃ rest,
    OrderedQMap.stream_in
      (OrderedQMap.stream_out (OrderedQMap.stream_out [] demo_map) empty_key_map)
      OrderedQMap.empty = (rest, demo_map) ∧
    OrderedQMap.stream_in rest OrderedQMap.empty = ([], empty_key_map).
Proof.
  assert (OrderedQMap.Inv empty_key_map) as HI.
  { split; [vm_compute; reflexivity|].
    apply (bool_decide_unpack _). vm_compute. exact I. }
  split; [exact demo_map_consistent|]. split; [exact HI|].
  exact (stream_two_maps_in_sequence demo_map empty_key_map demo_map_consistent HI).
Defined.

Lemma lookups_agree_with_contains_witness :
  OrderedQMap.I1 demo_map ∧
  OrderedQMap.count "z"%string demo_map = 0 ∧
  OrderedQMap.value_or "z"%string 99 demo_map = 99 ∧
  OrderedQMap.count "a"%string demo_map = 1.
Proof.
  split; [exact (proj1 demo_map_consistent)|].
  destruct (lookups_agree_with_contains demo_map "z"%string (proj1 demo_map_consistent))
    as (Habsent & _ & _).
  destruct (lookups_agree_with_contains demo_map "a"%string (proj1 demo_map_consistent))
    as (_ & Hpresent & _).
  destruct (Habsent eq_refl) as [Hcount Hval].
  split; [exact Hcount|]. split; [exact (Hval 99) | exact (proj1 (Hpresent eq_refl))].
Defined.

Lemma multi_calls_keep_one_entry_per_value_witness :
  OrderedQMultiMap.no_prepend_of_present_seq demo_multi_calls OrderedQMultiMap.empty = true ∧
  OrderedQMultiMap.occurrences "x"%string
    (OrderedQMultiMap.run demo_multi_calls OrderedQMultiMap.empty) =
  length (OrderedQMultiMap.values "x"%string
            (OrderedQMultiMap.run demo_multi_calls OrderedQMultiMap.empty)).
Proof.
  split; [vm_compute; reflexivity|].
  apply (multi_calls_keep_one_entry_per_value demo_multi_calls).
  vm_compute. reflexivity.
Defined.

Lemma multi_prepend_of_present_key_unbalances_witness :
  OrderedQMultiMap.balanced demo_multi ∧
  OrderedQMultiMap.contains "x"%string demo_multi = true ∧
  OrderedQMultiMap.values "x"%string (OrderedQMultiMap.prepend "x"%string 7 demo_multi) =
    7 :: OrderedQMultiMap.values "x"%string demo_multi ∧
  ¬ OrderedQMultiMap.balanced (OrderedQMultiMap.prepend "x"%string 7 demo_multi).
Proof.
  split; [exact demo_multi_balanced|]. split; [reflexivity|].
  destruct (multi_prepend_of_present_key_unbalances demo_multi "x"%string 7
              demo_multi_balanced eq_refl) as (_ & Hval & _ & Hbroken).
  split; [exact Hval | exact Hbroken].
Defined.

Lemma multi_size_is_order_length_witness :
  OrderedQMultiMap.balanced demo_multi ∧
  OrderedQMultiMap.size demo_multi = Z.of_nat (length (OrderedQMultiMap.keys demo_multi)).
Proof.
  split; [exact demo_multi_balanced|].
  exact (multi_size_is_order_length demo_multi demo_multi_balanced).
Defined.

Lemma multi_stream_round_trip_single_valued_witness :
  OrderedQMultiMap.balanced demo_multi_flat ∧
  NoDup (OrderedQMultiMap.keys demo_multi_flat) ∧
  ∀ key,
    OrderedQMultiMap.values key
      (OrderedQMultiMap.stream_in (OrderedQMultiMap.stream_out [] demo_multi_flat)
         OrderedQMultiMap.empty).2 = OrderedQMultiMap.values key demo_multi_flat.
Proof.
  assert (NoDup (OrderedQMultiMap.keys demo_multi_flat)) as Hnd.
  { apply (bool_decide_unpack _). vm_compute. exact I. }
  split; [exact demo_multi_flat_balanced|]. split; [exact Hnd|].
  exact (proj2 (multi_stream_round_trip_single_valued demo_multi_flat
                  demo_multi_flat_balanced Hnd)).
Defined.
